(** * Result recording and log messages of the WebGPU conformance test suite

    A shallow embedding of
    - [out-wpt/common/framework/logging/test_case_recorder.js]
      (class [TestCaseRecorder] and the numeric enum [PassState]),
    - [out/common/framework/logging/log_message.js]
      (the [LogMessageWithStack] the recorder constructs),
    - [out/common/internal/logging/log_message.js]
      (the [LogMessageWithStack] with [setFirstLineOnly]),
    together with a model of the parameter space builder.

    JavaScript objects that are shared by reference (the live result record
    handed to the recorder, and the recorder's log array) live in an
    explicit heap; JavaScript numbers that hold clock readings are IEEE 754
    binary64 values with the arithmetic of the standard library's
    specification of floating-point numbers. *)

From Stdlib Require Import ZArith SpecFloat String Ascii List.
From stdpp Require Import gmap strings list fin_maps.

Local Open Scope Z_scope.
Local Open Scope string_scope.

(** ** JavaScript numbers

    A number is a binary64 value: a signed zero, a signed infinity, NaN, or
    [(-1)^s * m * 2^e] in canonical form.  Subtraction, multiplication and
    division round to nearest, ties to even. *)

Module Number.

Definition prec : Z := 53.

Definition emax : Z := 1024.

(** The number that an integer literal denotes. *)
Definition of_Z (z : Z) : spec_float := binary_normalize prec emax z 0 false.

Definition sub (x y : spec_float) : spec_float := SFsub prec emax x y.

Definition mul (x y : spec_float) : spec_float := SFmul prec emax x y.

Definition div (x y : spec_float) : spec_float := SFdiv prec emax x y.

(** [x < y] and [x >= y]; both are false when an operand is NaN. *)
Definition ltb (x y : spec_float) : bool := SFltb x y.

Definition geb (x y : spec_float) : bool := SFleb y x.

(** [Number.isFinite(x)] *)
Definition isFinite (x : spec_float) : bool :=
  match x with
  | S754_zero _ | S754_finite _ _ _ => true
  | S754_infinity _ | S754_nan => false
  end.

End Number.

Coercion Number.of_Z : Z >-> spec_float.
Arguments Number.of_Z : simpl never.

(** [Math.ceil(x)]: the least integer not below [x]; zeros, infinities and
    NaN are returned as they are, and a result that is zero keeps the sign
    of [x].  For [e < 0] the integer is [- floor (- (+/- m) / 2^(-e))]. *)
Definition Math_ceil (x : spec_float) : spec_float :=
  match x with
  | S754_finite s m e =>
      if (0 <=? e)%Z then x
      else
        let k := (- ((- cond_Zopp s (Zpos m)) / 2 ^ (- e)))%Z in
        if (k =? 0)%Z then S754_zero s
        else binary_normalize Number.prec Number.emax k 0 s
  | _ => x
  end.

(** The numbers with [x >= 0]: a zero of either sign, a positive finite
    number or [+Infinity]. *)
Definition nonneg (x : spec_float) : Prop :=
  match x with
  | S754_zero _ | S754_infinity false | S754_finite false _ _ => True
  | _ => False
  end.

(** ** JavaScript values and thrown errors *)

Definition loc := positive.

Inductive value :=
  | VUndefined
  | VNumber (x : spec_float)
  | VString (s : string)
  | VBool (b : bool)
  | VRef (l : loc).

#[global] Instance spec_float_eq_dec : EqDecision spec_float.
Proof. solve_decision. Defined.

#[global] Instance value_eq_dec : EqDecision value.
Proof. solve_decision. Defined.

(** The class of a thrown object, as far as [instanceof SkipTestCase] can
    tell. *)
Inductive ErrorClass := PlainError | SkipTestCase.

Record Error := {
  ex_class : ErrorClass;
  ex_message : string;
  ex_stack : option string;
  ex_extra : option value
}.

Definition instanceof_SkipTestCase (ex : Error) : bool :=
  match ex_class ex with SkipTestCase => true | PlainError => false end.

(** Outcome of a method that may hit [assert(cond, msg)]. *)
Inductive outcome (A : Type) :=
  | Returns (a : A)
  | Throws (msg : string).
Arguments Returns {A} a.
Arguments Throws {A} msg.

Definition throws {A} (o : outcome A) : bool :=
  match o with Throws _ => true | Returns _ => false end.

(** ** framework/logging/log_message.js *)

Module Framework.

Record LogMessageWithStack := {
  name : string;
  message : string;
  stack : option string
}.

(** [constructor(name, ex, includeStack = true)] *)
Definition new (name : string) (ex : Error) (includeStack : bool)
  : LogMessageWithStack :=
  {| name := name;
     message := ex_message ex;
     stack := if includeStack then ex_stack ex else None |}.

(** [if (this.stack)]: the stack is defined and not the empty string. *)
Definition has_stack (l : LogMessageWithStack) : bool :=
  match stack l with
  | Some s => negb (String.eqb s "")
  | None => false
  end.

Section toJSON.
(** [extractImportantStackTrace] of [../util/stack.js]. *)
Variable extractImportantStackTrace : LogMessageWithStack → string.

Definition toJSON (l : LogMessageWithStack) : string :=
  let m := name l ++ ": " in
  if has_stack l then m ++ extractImportantStackTrace l
  else m ++ message l.
End toJSON.

End Framework.

Import Framework.

(** ** The heap of shared objects *)

Inductive object :=
  | OArray (elems : list LogMessageWithStack)
  | ORecord (fields : gmap string value).

(** [arr.push(e)] on the array at [l] *)
Definition push (l : loc) (e : LogMessageWithStack)
  (h : gmap loc object) : gmap loc object :=
  alter (λ o, match o with
              | OArray es => OArray (es ++ [e])
              | ORecord _ => o
              end) l h.

(** [obj.k = v] on the record at [l] *)
Definition set_field (l : loc) (k : string) (v : value)
  (h : gmap loc object) : gmap loc object :=
  alter (λ o, match o with
              | ORecord m => ORecord (<[k:=v]> m)
              | OArray _ => o
              end) l h.

(** [Object.assign(target, source)]: every own property of [source] is
    written to the record at [l]. *)
Definition Object_assign (l : loc) (source : gmap string value)
  (h : gmap loc object) : gmap loc object :=
  alter (λ o, match o with
              | ORecord m => ORecord (source ∪ m)
              | OArray _ => o
              end) l h.

(** ** test_case_recorder.js *)

Module PassState.
Definition pass : Z := 0.
Definition skip : Z := 1.
Definition warn : Z := 2.
Definition fail : Z := 3.

(** The reverse mapping [PassState[n]] of the numeric enum. *)
Definition name_of (n : Z) : value :=
  match n with
  | 0 => VString "pass"
  | 1 => VString "skip"
  | 2 => VString "warn"
  | 3 => VString "fail"
  | _ => VUndefined
  end.
End PassState.

Record TestCaseRecorder := {
  result : loc;
  state : Z;
  startTime : spec_float;
  logs : loc;
  debugging : bool
}.

(** A recorder object together with the heap its references point into. *)
Record World := {
  this : TestCaseRecorder;
  heap : gmap loc object
}.

(** [constructor(result, debugging)]: the log array [[]] is a new object. *)
Definition new_TestCaseRecorder (result : loc) (debugging : bool)
  (h : gmap loc object) : World :=
  let l := fresh (dom h) in
  {| this := {| result := result;
                state := PassState.pass;
                startTime := (-1)%Z;
                logs := l;
                debugging := debugging |};
     heap := <[l := OArray []]> h |}.

Definition setState (s : Z) (w : World) : World :=
  {| this := {| result := result (this w);
                state := Z.max (state (this w)) s;
                startTime := startTime (this w);
                logs := logs (this w);
                debugging := debugging (this w) |};
     heap := heap w |}.

(** [this.logs.push(new LogMessageWithStack(name, ex, includeStack))] *)
Definition logs_push (name : string) (ex : Error) (includeStack : bool)
  (w : World) : World :=
  {| this := this w;
     heap := push (logs (this w)) (new name ex includeStack) (heap w) |}.

Definition start (now : spec_float) (w : World) : outcome World :=
  if Number.ltb (startTime (this w)) 0 then
    Returns {| this := {| result := result (this w);
                          state := state (this w);
                          startTime := now;
                          logs := logs (this w);
                          debugging := debugging (this w) |};
               heap := heap w |}
  else Throws "TestCaseRecorder cannot be reused".

Definition round_to_next_microsecond (timeMilliseconds : spec_float)
  : spec_float :=
  Number.div (Math_ceil (Number.mul timeMilliseconds 1000)) 1000.

Definition finish (now : spec_float) (w : World) : outcome World :=
  if Number.geb (startTime (this w)) 0 then
    let timeMilliseconds := Number.sub now (startTime (this w)) in
    let r := result (this w) in
    let h1 := set_field r "timems"
                (VNumber (round_to_next_microsecond timeMilliseconds))
                (heap w) in
    let h2 := set_field r "status" (PassState.name_of (state (this w))) h1 in
    let h3 := set_field r "logs" (VRef (logs (this w))) h2 in
    Returns {| this := this w; heap := h3 |}
  else Throws "finish() before start()".

Definition injectResult (injectedResult : gmap string value) (w : World)
  : World :=
  {| this := this w;
     heap := Object_assign (result (this w)) injectedResult (heap w) |}.

Definition debug (ex : Error) (w : World) : World :=
  if negb (debugging (this w)) then w
  else logs_push "DEBUG" ex false w.

Definition warn (ex : Error) (w : World) : World :=
  logs_push "WARN" ex true (setState PassState.warn w).

Definition fail (ex : Error) (w : World) : World :=
  logs_push "FAIL" ex true (setState PassState.fail w).

Definition skipped (ex : Error) (w : World) : World :=
  logs_push "SKIP" ex true (setState PassState.skip w).

Definition threw (ex : Error) (w : World) : World :=
  if instanceof_SkipTestCase ex then skipped ex w
  else logs_push "EXCEPTION" ex true (setState PassState.fail w).

(** *** Sequences of method calls on one recorder *)

Inductive call :=
  | Debug (ex : Error)
  | Warn (ex : Error)
  | Fail (ex : Error)
  | Skipped (ex : Error)
  | Threw (ex : Error).

Definition do_call (c : call) (w : World) : World :=
  match c with
  | Debug ex => debug ex w
  | Warn ex => warn ex w
  | Fail ex => fail ex w
  | Skipped ex => skipped ex w
  | Threw ex => threw ex w
  end.

Fixpoint run_calls (cs : list call) (w : World) : World :=
  match cs with
  | [] => w
  | c :: cs' => run_calls cs' (do_call c w)
  end.

Inductive op :=
  | Start (now : spec_float)
  | Finish (now : spec_float)
  | InjectResult (injectedResult : gmap string value)
  | Call (c : call).

Definition do_op (o : op) (w : World) : outcome World :=
  match o with
  | Start now => start now w
  | Finish now => finish now w
  | InjectResult p => Returns (injectResult p w)
  | Call c => Returns (do_call c w)
  end.

(** A caller that catches a failed assertion and goes on using the same
    recorder: the failed method has not touched it. *)
Fixpoint run_ops (ops : list op) (w : World) : World :=
  match ops with
  | [] => w
  | o :: ops' =>
      match do_op o w with
      | Returns w' => run_ops ops' w'
      | Throws _ => run_ops ops' w
      end
  end.

Definition is_Start (o : op) : bool :=
  match o with Start _ => true | _ => false end.

(** The clock [now()] never reads a negative number of milliseconds. *)
Definition clock_nonneg (o : op) : bool :=
  match o with
  | Start now | Finish now => Number.geb now 0
  | _ => true
  end.

(** *** Observations *)

(** The content of the recorder's own log array. *)
Definition recorder_logs (w : World) : list LogMessageWithStack :=
  match heap w !! logs (this w) with
  | Some (OArray es) => es
  | _ => []
  end.

(** [result.k], read through the reference the recorder holds. *)
Definition result_field (k : string) (w : World) : option value :=
  match heap w !! result (this w) with
  | Some (ORecord m) => m !! k
  | _ => None
  end.

(** [result.logs], dereferenced: the entries a reporter sees. *)
Definition result_logs (w : World) : option (list LogMessageWithStack) :=
  match result_field "logs" w with
  | Some (VRef l) =>
      match heap w !! l with
      | Some (OArray es) => Some es
      | _ => None
      end
  | _ => None
  end.

(** The finalized Result record as a reporter reads it. *)
Definition finalized (w : World)
  : option value * option value * option (list LogMessageWithStack) :=
  (result_field "status" w, result_field "timems" w, result_logs w).

(** The references of the recorder point to a record and to an array. *)
Definition wf (w : World) : bool :=
  match heap w !! result (this w), heap w !! logs (this w) with
  | Some (ORecord _), Some (OArray _) => true
  | _, _ => false
  end.

(** The status a call asks for, and the greatest one over a sequence. *)
Definition severity (c : call) : Z :=
  match c with
  | Debug _ => PassState.pass
  | Warn _ => PassState.warn
  | Fail _ => PassState.fail
  | Skipped _ => PassState.skip
  | Threw ex =>
      if instanceof_SkipTestCase ex then PassState.skip else PassState.fail
  end.

Definition max_severity (cs : list call) : Z :=
  foldr (λ c m, Z.max (severity c) m) PassState.pass cs.

(** The entry a call logs, if any, on a recorder whose debugging flag is
    [dbg]. *)
Definition entry_of (dbg : bool) (c : call) : list LogMessageWithStack :=
  match c with
  | Debug ex => if dbg then [new "DEBUG" ex false] else []
  | Warn ex => [new "WARN" ex true]
  | Fail ex => [new "FAIL" ex true]
  | Skipped ex => [new "SKIP" ex true]
  | Threw ex =>
      if instanceof_SkipTestCase ex then [new "SKIP" ex true]
      else [new "EXCEPTION" ex true]
  end.

Definition entries_of (dbg : bool) (cs : list call)
  : list LogMessageWithStack :=
  concat (map (entry_of dbg) cs).

(** Pushing a sequence of entries, one [push] after the other. *)
Definition push_all (l : loc) (es : list LogMessageWithStack)
  (h : gmap loc object) : gmap loc object :=
  fold_left (λ h' e, push l e h') es h.

(** The logging calls of a history, in the order they were made. *)
Definition calls_of (ops : list op) : list call :=
  concat (map (λ o, match o with Call c => [c] | _ => [] end) ops).

(** The status the tag of a log entry stands for. *)
Definition tag_severity (e : LogMessageWithStack) : Z :=
  if String.eqb (name e) "FAIL" || String.eqb (name e) "EXCEPTION"
  then PassState.fail
  else if String.eqb (name e) "WARN" then PassState.warn
  else if String.eqb (name e) "SKIP" then PassState.skip
  else PassState.pass.

Definition worst_tag (es : list LogMessageWithStack) : Z :=
  foldr (λ e m, Z.max (tag_severity e) m) PassState.pass es.

(** ** internal/logging/log_message.js *)

Module Internal.

Record LogMessageWithStack := {
  name : string;
  message : string;
  stack : option string;
  extra : option value;
  firstLineOnlyMessage : option string
}.

(** [constructor(name, ex)]; [extra] is copied when ['extra' in ex]. *)
Definition new (name : string) (ex : Error) : LogMessageWithStack :=
  {| name := name;
     message := ex_message ex;
     stack := ex_stack ex;
     extra := ex_extra ex;
     firstLineOnlyMessage := None |}.

(** [this.firstLineOnlyMessage ??= firstLineOnlyMessage]; the argument is a
    string ([toJSON] compares it with [''] and splices it into its output). *)
Definition setFirstLineOnly (firstLineOnlyMessage' : string)
  (l : LogMessageWithStack) : LogMessageWithStack :=
  match firstLineOnlyMessage l with
  | Some _ => l
  | None =>
      {| name := name l;
         message := message l;
         stack := stack l;
         extra := extra l;
         firstLineOnlyMessage := Some firstLineOnlyMessage' |}
  end.

Definition newline : ascii := "010"%char.

(** [s.split('\n')[0]] *)
Fixpoint first_line (s : string) : string :=
  match s with
  | EmptyString => EmptyString
  | String c s' =>
      if Ascii.eqb c newline then EmptyString else String c (first_line s')
  end.

(** Truthiness of a string, and of a possibly undefined string. *)
Definition truthy (s : string) : bool := negb (String.eqb s "").

Definition truthy_opt (s : option string) : bool :=
  match s with Some s => truthy s | None => false end.

Section toJSON.
(** [extractImportantStackTrace] of [../stack.js]. *)
Variable extractImportantStackTrace : LogMessageWithStack → string.

Definition toJSON (l : LogMessageWithStack) : string :=
  let m := name l in
  match firstLineOnlyMessage l with
  | Some f =>
      let m := if truthy (message l)
               then m ++ ": " ++ first_line (message l) else m in
      if negb (String.eqb f "")
      then m ++ " (elided: " ++ f ++ ")" else m
  | None =>
      let m := if truthy (message l)
               then m ++ ": " ++ message l else m in
      if truthy_opt (stack l)
      then m ++ String newline "" ++ extractImportantStackTrace l else m
  end.
End toJSON.

(** A sequence of [setFirstLineOnly] calls on one message, the head of
    the list first. *)
Definition setFirstLineOnly_calls (fs : list string)
  (l : LogMessageWithStack) : LogMessageWithStack :=
  fold_left (λ l' f, setFirstLineOnly f l') fs l.

(** A stand-in for [extractImportantStackTrace] on concrete inputs: the
    stack as it is. *)
Definition whole_stack (l : LogMessageWithStack) : string :=
  match stack l with Some s => s | None => "" end.

(** [s.replace(/\n/g, '\n    ')] *)
Fixpoint replace_newlines (s : string) : string :=
  match s with
  | EmptyString => EmptyString
  | String c s' =>
      if Ascii.eqb c newline
      then String newline ("    " ++ replace_newlines s')
      else String c (replace_newlines s')
  end.

Section prettyPrintLog.
Variable extractImportantStackTrace : LogMessageWithStack → string.

Definition prettyPrintLog (log : LogMessageWithStack) : string :=
  "  - " ++ replace_newlines (toJSON extractImportantStackTrace log).
End prettyPrintLog.

(** No character of [s] is a newline. *)
Fixpoint no_newline (s : string) : bool :=
  match s with
  | EmptyString => true
  | String c s' => negb (Ascii.eqb c newline) && no_newline s'
  end.

(** Every newline of [s] is followed by four spaces. *)
Fixpoint lines_indented (s : string) : bool :=
  match s with
  | EmptyString => true
  | String c s' =>
      (if Ascii.eqb c newline then String.prefix "    " s' else true)
      && lines_indented s'
  end.

(** Reading an indented text back: [skip] characters are dropped, and
    then four more after each newline. *)
Fixpoint unindent (skip : nat) (s : string) : string :=
  match s with
  | EmptyString => EmptyString
  | String c s' =>
      match skip with
      | S k => unindent k s'
      | O =>
          String c (unindent (if Ascii.eqb c newline then 4 else 0) s')
      end
  end.

End Internal.


(** ** The parameter space builder *)

Module ParamsBuilder.

(** Modelled from the spec: the bind of the error monad in which a
    Configuration error of the builder (whose module is not among the
    sources; only its callers are) aborts the whole expansion. *)
#[global] Instance outcome_bind : MBind outcome :=
  λ A B f o, match o with Returns a => f a | Throws msg => Throws msg end.

(** Modelled from the spec: the operations of a Builder chain, missing from
    the sources.  A case record is a mapping from parameter name to value;
    a generator receives the partially built case; a predicate that refers
    to a key the case does not have has no answer. *)
Inductive operation :=
  | combine (name : string) (values : list value)
  | combineWithParams (records : list (gmap string value))
  | expand (name : string) (fn : gmap string value → list value)
  | expandWithParams (fn : gmap string value → list (gmap string value))
  | filter (pred : gmap string value → option bool)
  | unless (pred : gmap string value → option bool)
  | beginSubcases.

(** Modelled from the spec: merging a partial record into a case (the
    builder's merge is missing from the sources); a key that is already
    written is never overwritten, it is a Configuration error. *)
Definition merge (c p : gmap string value) : outcome (gmap string value) :=
  if decide (c ##ₘ p) then Returns (p ∪ c)
  else Throws "Configuration error: duplicate parameter name".

(** Modelled from the spec: one case multiplied by a sequence of partial
    records, in the order of the sequence. *)
Fixpoint merge_each (c : gmap string value) (ps : list (gmap string value))
  : outcome (list (gmap string value)) :=
  match ps with
  | [] => Returns []
  | p :: ps' =>
      c' ← merge c p; rest ← merge_each c ps'; Returns (c' :: rest)
  end.

(** Modelled from the spec: the cartesian multiplication of the running
    case sequence by a per-case sequence of partial records. *)
Fixpoint multiply (gen : gmap string value → list (gmap string value))
  (cases : list (gmap string value)) : outcome (list (gmap string value)) :=
  match cases with
  | [] => Returns []
  | c :: cases' =>
      here ← merge_each c (gen c);
      rest ← multiply gen cases';
      Returns (here ++ rest)%list
  end.

(** Modelled from the spec: [filter] keeps the cases on which the
    predicate is [keep = true], [unless] those on which it is false; a
    predicate without an answer is a Configuration error. *)
Fixpoint keep_cases (pred : gmap string value → option bool) (keep : bool)
  (cases : list (gmap string value)) : outcome (list (gmap string value)) :=
  match cases with
  | [] => Returns []
  | c :: cases' =>
      match pred c with
      | None => Throws "Configuration error: undeclared parameter name"
      | Some b =>
          rest ← keep_cases pred keep cases';
          Returns (if Bool.eqb b keep then c :: rest else rest)
      end
  end.

(** Modelled from the spec: the transformation one operation applies to
    the running sequence.  The marker is consumed by [split_subcases]; one
    that is still met here is a second [beginSubcases]. *)
Definition apply_operation (o : operation)
  (cases : list (gmap string value)) : outcome (list (gmap string value)) :=
  match o with
  | combine n vs => multiply (λ _, (λ v, {[n := v]}) <$> vs) cases
  | combineWithParams rs => multiply (λ _, rs) cases
  | expand n fn => multiply (λ c, (λ v, {[n := v]}) <$> fn c) cases
  | expandWithParams fn => multiply fn cases
  | filter pred => keep_cases pred true cases
  | unless pred => keep_cases pred false cases
  | beginSubcases => Throws "Configuration error: beginSubcases called twice"
  end.

(** Modelled from the spec: the left-to-right fold of the operation
    descriptors over the running sequence. *)
Fixpoint expand_ops (ops : list operation)
  (cases : list (gmap string value)) : outcome (list (gmap string value)) :=
  match ops with
  | [] => Returns cases
  | o :: ops' => cases' ← apply_operation o cases; expand_ops ops' cases'
  end.

(** Modelled from the spec: the operations before and after the
    [beginSubcases] marker. *)
Fixpoint split_subcases (b : list operation)
  : list operation * list operation :=
  match b with
  | [] => ([], [])
  | beginSubcases :: rest => ([], rest)
  | o :: rest => let (top, sub) := split_subcases rest in (o :: top, sub)
  end.

(** Modelled from the spec: the top-level cases, folded from one empty
    case. *)
Definition top_level_cases (b : list operation)
  : outcome (list (gmap string value)) :=
  expand_ops (fst (split_subcases b)) [∅].

(** Modelled from the spec: the subcases a top-level case derives for
    itself, the continuation of the fold from that case. *)
Definition subcases_of (b : list operation) (c : gmap string value)
  : outcome (list (gmap string value)) :=
  expand_ops (snd (split_subcases b)) [c].

(** Modelled from the spec: the nested run loop, for each top-level case,
    for each subcase of that case, execute once. *)
Fixpoint run_loop (b : list operation) (tops : list (gmap string value))
  : outcome (list (gmap string value)) :=
  match tops with
  | [] => Returns []
  | c :: tops' =>
      here ← subcases_of b c; rest ← run_loop b tops'; Returns (here ++ rest)%list
  end.

(** Modelled from the spec: the executed cases of a Builder chain. *)
Definition executed (b : list operation)
  : outcome (list (gmap string value)) :=
  tops ← top_level_cases b; run_loop b tops.

(** The chain [combine(n1, vs1). ... .beginSubcases().combine(m1, ws1). ...]
    of top-level axes [tops] and subcase axes [subs]. *)
Definition chain (tops subs : list (string * list value)) : list operation :=
  ((λ a, combine a.1 a.2) <$> tops)
  ++ beginSubcases :: ((λ a, combine a.1 a.2) <$> subs).

(** The combinations of one value per axis, enumerated by nested loops in
    the order the axes are declared (the first axis is the outermost
    loop). *)
Fixpoint nested_loops (axes : list (string * list value))
  : list (gmap string value) :=
  match axes with
  | [] => [∅]
  | a :: rest =>
      a.2 ≫= λ v, (λ c, <[a.1 := v]> c) <$> nested_loops rest
  end.

Definition product_of_sizes (axes : list (string * list value)) : nat :=
  foldr (λ a n, (length a.2 * n)%nat) 1%nat axes.

(** A case is a combination of the axes when it has exactly their names as
    keys and maps each to one of the values of that axis. *)
Definition is_combination (axes : list (string * list value))
  (c : gmap string value) : Prop :=
  dom c = list_to_set axes.*1
  ∧ Forall (λ a, ∃ v, v ∈ a.2 ∧ c !! a.1 = Some v) axes.

End ParamsBuilder.

Import ParamsBuilder.

(** ** api/validation/capability_checks/limits/limit_utils.ts

    The limits are whole numbers far below 2^53, on which the additions,
    the subtractions and the halving of the code are exact; they are
    integers here, and [x | 0] is the conversion to a signed 32-bit
    integer. *)

Module LimitUtils.

Inductive BindGroupTest := sameGroup | differentGroups.

(** [i % 3] is the remainder of the truncated division. *)
Definition getBindGroupIndex (bindGroupTest : BindGroupTest) (i : Z) : Z :=
  match bindGroupTest with
  | sameGroup => 0
  | differentGroups => Z.rem i 3
  end.

Inductive TestValue := atLimit | overLimit.

Definition getTestValue (limit : Z) (testValue : TestValue) : Z :=
  match testValue with
  | atLimit => limit
  | overLimit => limit + 1
  end.

Inductive LimitValueTest :=
  | atDefault
  | underDefault
  | betweenDefaultAndMaximum
  | atMaximum
  | overMaximum.

(** [x | 0] on a number [x] whose integer part is [z]. *)
Definition ToInt32 (z : Z) : Z :=
  let m := z mod 2 ^ 32 in
  if (m <? 2 ^ 31)%Z then m else m - 2 ^ 32.

Definition getLimitValue (defaultLimit maximumLimit : Z)
  (limitValueTest : LimitValueTest) : Z :=
  match limitValueTest with
  | atDefault => defaultLimit
  | underDefault => defaultLimit - 1
  | betweenDefaultAndMaximum =>
      ToInt32 (Z.quot (defaultLimit + maximumLimit) 2)
  | atMaximum => maximumLimit
  | overMaximum => maximumLimit + 1
  end.

(** [shouldReject] of [_getDeviceWithSpecificLimit]; [isMinimumLimit] is
    [kMinimumLimits.has(limit)]. *)
Definition shouldReject (isMinimumLimit : bool)
  (requestedLimit maximumLimit : Z) : bool :=
  if isMinimumLimit then (requestedLimit <? maximumLimit)%Z
  else (requestedLimit >? maximumLimit)%Z.

(** [shouldError] of [_testThenDestroyDevice]. *)
Definition shouldError (isMinimumLimit : bool)
  (testValue actualLimit : Z) : bool :=
  if isMinimumLimit then (testValue <? actualLimit)%Z
  else (testValue >? actualLimit)%Z.

(** The limit [_getDeviceWithSpecificLimit] expects of a device that was
    created: the value it compares [actualLimit] with. *)
Definition expectedActualLimit (isMinimumLimit : bool)
  (requestedLimit defaultLimit : Z) : Z :=
  if isMinimumLimit then
    if (requestedLimit <=? defaultLimit)%Z then requestedLimit
    else defaultLimit
  else
    if (requestedLimit <=? defaultLimit)%Z then defaultLimit
    else requestedLimit.

End LimitUtils.

(** ** webgpu/gpu_test.js

    The calls on the device of [createCopyForMapRead] (buffer creation,
    copy and submission) are outside of this model; what is kept is the
    assertions, the one of the [device] getter included, and the copy that
    is asked for. *)

Module GPUTest.

(** The copy [c.copyBufferToBuffer(src, srcOffset, dst, 0, size)] into a
    new buffer of [size] bytes. *)
Record BufferCopy := {
  srcOffset : Z;
  size : Z
}.

Definition assert (condition : bool) (msg : string) : outcome unit :=
  if condition then Returns tt else Throws msg.

(** The getter [device]; [provider] is [this.provider !== undefined] (the
    message of the assertion is cut after its first sentence). *)
Definition device (provider : bool) : outcome unit :=
  assert provider "No provider available right now".

Definition createCopyForMapRead (provider : bool) (srcOffset size : Z)
  : outcome BufferCopy :=
  _ ← assert (Z.rem srcOffset 4 =? 0)%Z "";
  _ ← assert (Z.rem size 4 =? 0)%Z "";
  _ ← device provider;
  Returns {| srcOffset := srcOffset; size := size |}.

(** The [method] of a readback: ['copy'] or ['map']. *)
Inductive ReadbackMethod := copy | map.

(** An index of [TypedArray.prototype.subarray], relative to the end when
    negative, clamped to the array. *)
Definition relative_index (len i : Z) : Z :=
  if (i <? 0)%Z then Z.max (len + i) 0 else Z.min i len.

(** [a.subarray(begin, end)] on an array of [len] elements: the index of
    its first element in [a] and its length. *)
Definition subarray (len begin_ end_ : Z) : Z * Z :=
  let b := relative_index len begin_ in
  let e := relative_index len end_ in
  (b, Z.max (e - b) 0).

(** The typed array [data] of a readback: where its first element lies in
    the source buffer, in bytes, and how many elements it has. *)
Record Readback := {
  dataByteOffset : Z;
  dataLength : Z
}.

(** What the offset of a readback is rounded down to: 4 bytes for the
    copy into a staging buffer, 8 bytes for the mapping of the source. *)
Definition staging_alignment (method : ReadbackMethod) : Z :=
  match method with copy => 4 | map => 8 end.

Section createAlignedCopyForMapRead.
(** [roundDown] and [align] of [util/math.js]. *)
Variables roundDown align : Z → Z → Z.

Definition createAlignedCopyForMapRead (provider : bool) (size offset : Z)
  : outcome (BufferCopy * Z) :=
  let alignedOffset := roundDown offset 4 in
  let subarrayByteStart := offset - alignedOffset in
  let alignedSize := align (size + subarrayByteStart) 4 in
  mappable ← createCopyForMapRead provider alignedOffset alignedSize;
  Returns (mappable, subarrayByteStart).

(** [readGPUBufferRangeTyped] up to the typed array it returns: the staging
    of the bytes (for ['copy'], the whole staging buffer is mapped; for
    ['map'], the range [mapOffset, mapOffset + mapSize) of the source), the
    typed array over the mapped bytes ([new type(buffer)] needs a whole
    number of elements) and [mapped.subarray(subarrayStart, typedLength)].
    Mapping itself is assumed to succeed. *)
Definition readGPUBufferRangeTyped (provider : bool)
  (method : ReadbackMethod) (BYTES_PER_ELEMENT : Z)
  (srcByteOffset typedLength : Z) : outcome Readback :=
  _ ← assert (Z.rem srcByteOffset BYTES_PER_ELEMENT =? 0)%Z
        "srcByteOffset must be a multiple of BYTES_PER_ELEMENT";
  let byteLength := typedLength * BYTES_PER_ELEMENT in
  staged ←
    match method with
    | copy =>
        r ← createAlignedCopyForMapRead provider byteLength srcByteOffset;
        Returns (srcOffset r.1, size r.1, r.2)
    | map =>
        let mapOffset := roundDown srcByteOffset 8 in
        let mapSize := align byteLength 4 in
        Returns (mapOffset, mapSize, srcByteOffset - mapOffset)
    end;
  let mappedStart := staged.1.1 in
  let mappedBytes := staged.1.2 in
  let subarrayByteStart := staged.2 in
  _ ← assert (Z.rem subarrayByteStart BYTES_PER_ELEMENT =? 0)%Z "";
  let subarrayStart := subarrayByteStart / BYTES_PER_ELEMENT in
  _ ← assert (Z.rem mappedBytes BYTES_PER_ELEMENT =? 0)%Z "RangeError";
  let data :=
    subarray (mappedBytes / BYTES_PER_ELEMENT) subarrayStart typedLength in
  Returns {| dataByteOffset := mappedStart + data.1 * BYTES_PER_ELEMENT;
             dataLength := data.2 |}.
End createAlignedCopyForMapRead.

(** Rounding to a multiple, as [util/math.js] is used here: down
    ([Math.floor(n / a) * a]) and up ([Math.ceil(n / a) * a]). *)
Definition floor_multiple (n a : Z) : Z := n / a * a.

Definition ceil_multiple (n a : Z) : Z := (n + a - 1) / a * a.

End GPUTest.

(** ** Concrete inputs *)

(** A concrete setting: a heap holding one empty result record, two plain
    errors and a skip signal. *)
Definition heap1 : gmap loc object := {[ 1%positive := ORecord ∅ ]}.

Definition error (msg : string) : Error :=
  {| ex_class := PlainError; ex_message := msg;
     ex_stack := Some ("Error: " ++ msg ++ " at body")%string;
     ex_extra := None |}.

Definition skip_signal (msg : string) : Error :=
  {| ex_class := SkipTestCase; ex_message := msg;
     ex_stack := Some ("SkipTestCase: " ++ msg)%string;
     ex_extra := None |}.

(** A recorder started at time 5 with an empty log. *)
Definition started1 : World :=
  {| this := {| result := 1%positive;
                state := PassState.pass;
                startTime := 5;
                logs := 2%positive;
                debugging := false |};
     heap := {[ 1%positive := ORecord ∅; 2%positive := OArray [] ]} |}.

(** Readings of the clock: the binary64 numbers that the literals [3.5],
    [3.641] and [7.5] denote. *)
Definition clock_3_5 : spec_float := S754_finite false 7881299347898368 (-51).

Definition clock_3_641 : spec_float :=
  S754_finite false 8198803121627988 (-51).

Definition clock_7_5 : spec_float := S754_finite false 8444249301319680 (-50).

Definition axis_x : string * list value := ("x", [VNumber 1; VNumber 2]).

Definition axis_y : string * list value :=
  ("y", [VString "a"; VString "b"]).

Definition two_line_error : Error :=
  {| ex_class := PlainError;
     ex_message := "expected 1" ++ String Internal.newline "got 2";
     ex_stack := Some "Error: expected 1 at body";
     ex_extra := None |}.

(** * Properties of the recorder *)

Local Open Scope list_scope.

Section heap_lemmas.
Implicit Types (h : gmap loc object) (l r : loc) (e : LogMessageWithStack).

Lemma lookup_push h l e l' :
  push l e h !! l' =
    match h !! l' with
    | Some (OArray es) =>
        Some (OArray (if decide (l = l') then es ++ [e] else es))
    | o => o
    end.
Proof.
  unfold push. rewrite lookup_alter.
  case_decide; simplify_eq; destruct (h !! l') as [[]|]; done.
Qed.

Lemma lookup_set_field h r k v l' :
  set_field r k v h !! l' =
    match h !! l' with
    | Some (ORecord m) =>
        Some (ORecord (if decide (r = l') then <[k:=v]> m else m))
    | o => o
    end.
Proof.
  unfold set_field. rewrite lookup_alter.
  case_decide; simplify_eq; destruct (h !! l') as [[]|]; done.
Qed.

Lemma lookup_Object_assign h r p l' :
  Object_assign r p h !! l' =
    match h !! l' with
    | Some (ORecord m) =>
        Some (ORecord (if decide (r = l') then p ∪ m else m))
    | o => o
    end.
Proof.
  unfold Object_assign. rewrite lookup_alter.
  case_decide; simplify_eq; destruct (h !! l') as [[]|]; done.
Qed.

Lemma lookup_set_field_record h r k v m :
  h !! r = Some (ORecord m) →
  set_field r k v h !! r = Some (ORecord (<[k:=v]> m)).
Proof. intros Hr. by rewrite lookup_set_field, Hr, decide_True. Qed.

Lemma lookup_set_field_array h r k v l es :
  h !! l = Some (OArray es) → set_field r k v h !! l = Some (OArray es).
Proof. intros Hl. by rewrite lookup_set_field, Hl. Qed.

End heap_lemmas.

(** Case analysis on a logging call, down to the branch it takes. *)
Ltac call_cases c w :=
  let ex := fresh "ex" in
  destruct c as [ex|ex|ex|ex|ex]; simpl;
  unfold debug, threw, skipped, warn, fail, instanceof_SkipTestCase;
  try (destruct (debugging (this w)) eqn:?);
  try (destruct (ex_class ex));
  simpl.

(** What a logging call does to the recorder object itself. *)
Lemma this_do_call c w :
  (PassState.pass ≤ state (this w))%Z →
  this (do_call c w) =
    {| result := result (this w);
       state := Z.max (state (this w)) (severity c);
       startTime := startTime (this w);
       logs := logs (this w);
       debugging := debugging (this w) |}.
Proof.
  unfold PassState.pass.
  destruct w as [[r s t l d] h], c as [ex|ex|ex|ex|ex]; simpl; intros Hs;
    unfold debug, threw, instanceof_SkipTestCase; simpl;
    try reflexivity.
  - destruct d; simpl; f_equal; unfold PassState.pass; lia.
  - destruct (ex_class ex); reflexivity.
Qed.

Lemma state_monotone c w :
  (state (this w) ≤ state (this (do_call c w)))%Z.
Proof.
  destruct c as [ex|ex|ex|ex|ex]; simpl;
    unfold debug, threw, instanceof_SkipTestCase.
  1: destruct (debugging (this w)); simpl; lia.
  4: destruct (ex_class ex); simpl; lia.
  all: simpl; lia.
Qed.

Lemma this_run_calls cs w :
  (PassState.pass ≤ state (this w))%Z →
  this (run_calls cs w) =
    {| result := result (this w);
       state := Z.max (state (this w)) (max_severity cs);
       startTime := startTime (this w);
       logs := logs (this w);
       debugging := debugging (this w) |}.
Proof.
  revert w. induction cs as [|c cs IH]; intros w Hs; simpl.
  - destruct w as [[r s t l d] h]; simpl in *. f_equal. lia.
  - rewrite IH; rewrite this_do_call by done; simpl; [f_equal; lia | lia].
Qed.

Section heap_of_calls.
Implicit Types (h : gmap loc object) (l : loc) (w : World).

Lemma lookup_push_all h l es l' :
  push_all l es h !! l' =
    match h !! l' with
    | Some (OArray xs) =>
        Some (OArray (if decide (l = l') then xs ++ es else xs))
    | o => o
    end.
Proof.
  unfold push_all. revert h.
  induction es as [|e es IH]; intros h; simpl.
  - destruct (h !! l') as [[xs|m]|]; try done.
    case_decide; by rewrite ?app_nil_r.
  - rewrite IH, lookup_push.
    destruct (h !! l') as [[xs|m]|]; try done.
    case_decide; by rewrite <- ?app_assoc.
Qed.

Lemma push_all_app h l es1 es2 :
  push_all l (es1 ++ es2) h = push_all l es2 (push_all l es1 h).
Proof. unfold push_all. apply fold_left_app. Qed.

Lemma heap_do_call c w :
  heap (do_call c w) =
    push_all (logs (this w)) (entry_of (debugging (this w)) c) (heap w).
Proof. by call_cases c w. Qed.

Lemma logs_do_call c w : logs (this (do_call c w)) = logs (this w).
Proof. by call_cases c w. Qed.

Lemma debugging_do_call c w :
  debugging (this (do_call c w)) = debugging (this w).
Proof. by call_cases c w. Qed.

Lemma result_do_call c w : result (this (do_call c w)) = result (this w).
Proof. by call_cases c w. Qed.

Lemma heap_run_calls cs w :
  heap (run_calls cs w) =
    push_all (logs (this w)) (entries_of (debugging (this w)) cs) (heap w).
Proof.
  revert w. induction cs as [|c cs IH]; intros w; [done|].
  simpl. rewrite IH, logs_do_call, debugging_do_call, heap_do_call.
  unfold entries_of. simpl. by rewrite push_all_app.
Qed.

Lemma logs_run_calls cs w : logs (this (run_calls cs w)) = logs (this w).
Proof.
  revert w. induction cs as [|c cs IH]; intros w; [done|].
  simpl. by rewrite IH, logs_do_call.
Qed.

Lemma result_run_calls cs w : result (this (run_calls cs w)) = result (this w).
Proof.
  revert w. induction cs as [|c cs IH]; intros w; [done|].
  simpl. by rewrite IH, result_do_call.
Qed.

Lemma debugging_run_calls cs w :
  debugging (this (run_calls cs w)) = debugging (this w).
Proof.
  revert w. induction cs as [|c cs IH]; intros w; [done|].
  simpl. by rewrite IH, debugging_do_call.
Qed.

Lemma startTime_run_calls cs w :
  startTime (this (run_calls cs w)) = startTime (this w).
Proof.
  revert w. induction cs as [|c cs IH]; intros w; [done|].
  simpl. rewrite IH. by call_cases c w.
Qed.

Lemma state_run_calls_ge cs w :
  (state (this w) ≤ state (this (run_calls cs w)))%Z.
Proof.
  revert w. induction cs as [|c cs IH]; intros w; simpl; [lia|].
  etrans; [apply (state_monotone c)|apply IH].
Qed.

Lemma recorder_logs_run_calls cs w :
  wf w = true →
  recorder_logs (run_calls cs w) =
    recorder_logs w ++ entries_of (debugging (this w)) cs.
Proof.
  unfold wf, recorder_logs. intros Hwf.
  rewrite heap_run_calls, logs_run_calls, lookup_push_all.
  destruct (heap w !! result (this w)) as [[|]|]; try done.
  destruct (heap w !! logs (this w)) as [[xs|]|]; try done.
  by rewrite decide_True.
Qed.

Lemma result_field_run_calls k cs w :
  result_field k (run_calls cs w) = result_field k w.
Proof.
  unfold result_field.
  rewrite heap_run_calls, result_run_calls, lookup_push_all.
  by destruct (heap w !! result (this w)) as [[|]|].
Qed.

Lemma wf_run_calls cs w : wf w = true → wf (run_calls cs w) = true.
Proof.
  unfold wf.
  rewrite heap_run_calls, result_run_calls, logs_run_calls, !lookup_push_all.
  destruct (heap w !! result (this w)) as [[|]|]; try done.
  by destruct (heap w !! logs (this w)) as [[|]|].
Qed.

Lemma wf_new res dbg h m0 :
  h !! res = Some (ORecord m0) → wf (new_TestCaseRecorder res dbg h) = true.
Proof.
  intros Hres. unfold wf, new_TestCaseRecorder. simpl.
  assert (fresh (dom h) ≠ res) as Hne.
  { intros <-. apply (is_fresh (dom h)). apply elem_of_dom. eauto. }
  rewrite lookup_insert_ne, Hres by done. by rewrite lookup_insert_eq.
Qed.

End heap_of_calls.

(** ** Signs in binary64 arithmetic *)

Section binary64.

Lemma of_Z_0 : Number.of_Z 0 = S754_zero false.
Proof. reflexivity. Qed.

Lemma geb_0_nonneg x : Number.geb x 0 = true ↔ nonneg x.
Proof. rewrite of_Z_0. by destruct x as [[]|[]| |[] m e]. Qed.

Lemma geb_0_ltb_0 x : Number.geb x 0 = true → Number.ltb x 0 = false.
Proof. rewrite of_Z_0. by destruct x as [[]|[]| |[] m e]. Qed.

Lemma shr_1_nonneg mrs : (0 ≤ shr_m mrs)%Z → (0 ≤ shr_m (shr_1 mrs))%Z.
Proof. destruct mrs as [[|[p|p|]|p] r s]; simpl; lia. Qed.

Lemma iter_pos_shr_1_nonneg p mrs :
  (0 ≤ shr_m mrs)%Z → (0 ≤ shr_m (SpecFloat.iter_pos shr_1 p mrs))%Z.
Proof.
  revert mrs. induction p as [p IH|p IH|]; intros mrs Hm; simpl.
  - by apply IH, IH, shr_1_nonneg.
  - by apply IH, IH.
  - by apply shr_1_nonneg.
Qed.

Lemma shr_fexp_nonneg m e l :
  (0 ≤ m)%Z →
  (0 ≤ shr_m (shr_fexp Number.prec Number.emax m e l).1)%Z.
Proof.
  intros Hm. unfold shr_fexp, shr.
  assert (0 ≤ shr_m (shr_record_of_loc m l))%Z as Hr.
  { by destruct l as [|[]]. }
  destruct (_ - e)%Z as [|p|p]; simpl; try done.
  by apply iter_pos_shr_1_nonneg.
Qed.

Lemma round_nearest_even_nonneg m l :
  (0 ≤ m)%Z → (0 ≤ round_nearest_even m l)%Z.
Proof.
  intros Hm. destruct l as [|[]]; simpl; try lia.
  destruct (Z.even m); lia.
Qed.

Lemma binary_round_aux_nonneg m e l :
  (0 ≤ m)%Z → nonneg (binary_round_aux Number.prec Number.emax false m e l).
Proof.
  intros Hm. unfold binary_round_aux.
  pose proof (shr_fexp_nonneg m e l Hm) as H1.
  destruct (shr_fexp _ _ m e l) as [mrs' e']. simpl in H1.
  pose proof (shr_fexp_nonneg _ e' loc_Exact
                (round_nearest_even_nonneg _ (loc_of_shr_record mrs') H1))
    as H2.
  destruct (shr_fexp _ _ _ e' loc_Exact) as [mrs'' e'']. simpl in H2.
  destruct (shr_m mrs'') as [|p|p]; [done| |lia].
  by destruct (_ <=? _)%Z.
Qed.

Lemma binary_normalize_nonneg m e s :
  (0 ≤ m)%Z → nonneg (binary_normalize Number.prec Number.emax m e s).
Proof.
  intros Hm. destruct m as [|p|p]; [done| |lia].
  simpl. unfold binary_round.
  destruct (shl_align _ _ _) as [mz ez].
  by apply binary_round_aux_nonneg.
Qed.

Lemma of_Z_1000 :
  Number.of_Z 1000 = S754_finite false 8796093022208000 (-43).
Proof. reflexivity. Qed.

Lemma mul_1000_nonneg x : nonneg x → nonneg (Number.mul x 1000).
Proof.
  rewrite of_Z_1000.
  destruct x as [s|[]| |[] m e]; try done; intros _.
  by apply binary_round_aux_nonneg.
Qed.

Lemma Math_ceil_nonneg x : nonneg x → nonneg (Math_ceil x).
Proof.
  destruct x as [s|[]| |[] m e]; try done; intros _.
  unfold Math_ceil. destruct (0 <=? e)%Z eqn:He; [done|].
  apply Z.leb_gt in He. cbv zeta.
  destruct (_ =? 0)%Z; [done|].
  apply binary_normalize_nonneg. simpl.
  assert (0 < 2 ^ (- e))%Z by (apply Z.pow_pos_nonneg; lia).
  Z.div_mod_to_equations. nia.
Qed.

Lemma div_1000_nonneg x : nonneg x → nonneg (Number.div x 1000).
Proof.
  rewrite of_Z_1000.
  destruct x as [s|[]| |[] m e]; try done; intros _.
  unfold Number.div, SFdiv, SFdiv_core_binary. cbv zeta.
  set (m' := match _ with Z0 => _ | Zpos _ => _ | Zneg _ => _ end).
  assert (0 ≤ m')%Z as Hm'.
  { unfold m'. destruct (_ - _ - _)%Z; try lia.
    apply Z.shiftl_nonneg. lia. }
  pose proof (Z.div_eucl_eq m' 8796093022208000 ltac:(lia)) as Heq.
  pose proof (Z.mod_pos_bound m' 8796093022208000 ltac:(lia)) as Hr.
  unfold Z.modulo in Hr.
  destruct (Z.div_eucl m' _) as [q r].
  apply binary_round_aux_nonneg. nia.
Qed.

Lemma round_to_next_microsecond_nonneg x :
  nonneg x → nonneg (round_to_next_microsecond x).
Proof.
  intros Hx. by apply div_1000_nonneg, Math_ceil_nonneg, mul_1000_nonneg.
Qed.

Lemma digits2_pos_bounds m :
  (2 ^ (Zpos (digits2_pos m) - 1) ≤ Zpos m < 2 ^ Zpos (digits2_pos m))%Z.
Proof.
  induction m as [m IH|m IH|]; simpl digits2_pos; [| |simpl; lia].
  - rewrite Pos2Z.inj_succ.
    replace (Z.succ (Z.pos (digits2_pos m)) - 1)%Z
      with (Z.succ (Z.pos (digits2_pos m) - 1))%Z by lia.
    rewrite !Z.pow_succ_r by lia. lia.
  - rewrite Pos2Z.inj_succ.
    replace (Z.succ (Z.pos (digits2_pos m)) - 1)%Z
      with (Z.succ (Z.pos (digits2_pos m) - 1))%Z by lia.
    rewrite !Z.pow_succ_r by lia. lia.
Qed.

Lemma iter_xO m p : Zpos (Pos.iter xO m p) = (Zpos m * 2 ^ Zpos p)%Z.
Proof.
  revert m. induction p as [|p IH] using Pos.peano_ind; intros m.
  - simpl. lia.
  - rewrite Pos.iter_succ, Pos2Z.inj_succ, Z.pow_succ_r, Pos2Z.inj_xO, IH
      by lia. lia.
Qed.

(** The difference of two ordered finite numbers is not negative. *)
Lemma sub_nonneg t0 t1 :
  valid_binary Number.prec Number.emax t0 = true →
  valid_binary Number.prec Number.emax t1 = true →
  Number.geb t0 0 = true →
  Number.geb t1 t0 = true →
  Number.isFinite t1 = true →
  nonneg (Number.sub t1 t0).
Proof.
  intros Hv0 Hv1 H0%geb_0_nonneg H01 Hfin.
  destruct t0 as [s0|[]| |[] m0 e0]; try done;
    destruct t1 as [s1|[]| |[] m1 e1]; try done.
  - by destruct s1, s0.
  - unfold Number.sub, SFsub, Number.geb, SFleb, SFcompare in *.
    apply binary_normalize_nonneg. simpl cond_Zopp.
    unfold valid_binary, bounded, canonical_mantissa, fexp, emin,
      Number.prec, Number.emax in Hv0, Hv1.
    apply andb_true_iff in Hv0 as [Hc0%Z.eqb_eq _].
    apply andb_true_iff in Hv1 as [Hc1%Z.eqb_eq _].
    pose proof (digits2_pos_bounds m0) as Hd0.
    pose proof (digits2_pos_bounds m1) as Hd1.
    unfold shl_align.
    destruct (e0 ?= e1)%Z eqn:Hcmp.
    + apply Z.compare_eq in Hcmp as ->.
      rewrite Z.min_id, Z.sub_diag. cbn [fst].
      destruct (Pos.compare_cont Eq m0 m1) eqn:Hm; try done.
      * apply Pos.compare_eq in Hm as ->. lia.
      * change (Pos.compare m0 m1 = Lt) in Hm.
        rewrite Pos.compare_lt_iff in Hm. lia.
    + rewrite Z.compare_lt_iff in Hcmp.
      rewrite Z.min_r by lia. rewrite Z.sub_diag.
      destruct (e0 - e1)%Z as [|p|p] eqn:Hp; try lia.
      simpl fst. rewrite iter_xO.
      assert (Zpos (digits2_pos m1) = 53)%Z as Hd by lia.
      assert (Zpos (digits2_pos m0) ≤ 53)%Z as Hd' by lia.
      rewrite Hd in Hd1.
      assert (Zpos m0 < 2 ^ 53)%Z.
      { eapply Z.lt_le_trans; [apply Hd0|].
        apply Z.pow_le_mono_r; lia. }
      assert (2 ^ 1 ≤ 2 ^ Zpos p)%Z by (apply Z.pow_le_mono_r; lia).
      change (2 ^ (53 - 1))%Z with 4503599627370496%Z in Hd1.
      change (2 ^ 53)%Z with 9007199254740992%Z in *.
      change (2 ^ 1)%Z with 2%Z in *.
      nia.
    + done.
Qed.

End binary64.

Section start_finish.
Implicit Types (h : gmap loc object) (w : World) (now : spec_float).

Lemma start_new now res dbg h :
  start now (new_TestCaseRecorder res dbg h) =
    Returns {| this := {| result := res;
                          state := PassState.pass;
                          startTime := now;
                          logs := fresh (dom h);
                          debugging := dbg |};
               heap := <[fresh (dom h) := OArray []]> h |}.
Proof. reflexivity. Qed.

Lemma finish_started now w :
  Number.geb (startTime (this w)) 0 = true →
  finish now w =
    Returns {| this := this w;
               heap :=
                 set_field (result (this w)) "logs" (VRef (logs (this w)))
                   (set_field (result (this w)) "status"
                      (PassState.name_of (state (this w)))
                      (set_field (result (this w)) "timems"
                         (VNumber (round_to_next_microsecond
                                     (Number.sub now (startTime (this w)))))
                         (heap w))) |}.
Proof.
  intros Hs. unfold finish. by rewrite Hs.
Qed.

(** What a reporter reads from the result record once [finish] returned. *)
Lemma result_after_finish now w w2 :
  wf w = true →
  finish now w = Returns w2 →
  this w2 = this w
  ∧ result_field "timems" w2 =
      Some (VNumber (round_to_next_microsecond
                       (Number.sub now (startTime (this w)))))
  ∧ result_field "status" w2 = Some (PassState.name_of (state (this w)))
  ∧ result_field "logs" w2 = Some (VRef (logs (this w)))
  ∧ result_logs w2 = Some (recorder_logs w)
  ∧ recorder_logs w2 = recorder_logs w
  ∧ wf w2 = true.
Proof.
  unfold wf, finish. intros Hwf Hfin.
  destruct (Number.geb (startTime (this w)) 0); [|done].
  injection Hfin as <-.
  destruct (heap w !! result (this w)) as [[|m]|] eqn:Hr; try done.
  destruct (heap w !! logs (this w)) as [[es|]|] eqn:Hl; try done.
  unfold result_logs, result_field, recorder_logs, wf. simpl.
  erewrite lookup_set_field_record;
    [|by apply lookup_set_field_record, lookup_set_field_record].
  rewrite lookup_insert_eq.
  erewrite (lookup_set_field_array _ _ _ _ (logs (this w)));
    [|by do 2 apply lookup_set_field_array].
  rewrite Hl. by simplify_map_eq.
Qed.

End start_finish.

Lemma max_severity_cons c cs :
  max_severity (c :: cs) = Z.max (severity c) (max_severity cs).
Proof. reflexivity. Qed.

Lemma severity_range c : (PassState.pass ≤ severity c ≤ PassState.fail)%Z.
Proof.
  destruct c as [ex|ex|ex|ex|ex]; simpl;
    unfold instanceof_SkipTestCase, PassState.pass, PassState.warn,
      PassState.fail, PassState.skip; try destruct (ex_class ex); lia.
Qed.

Lemma max_severity_range cs :
  (PassState.pass ≤ max_severity cs ≤ PassState.fail)%Z.
Proof.
  induction cs as [|c cs IH]; [done|].
  rewrite max_severity_cons. pose proof (severity_range c). lia.
Qed.

Lemma max_severity_Permutation cs cs' :
  cs ≡ₚ cs' → max_severity cs = max_severity cs'.
Proof.
  induction 1; rewrite ?max_severity_cons; lia.
Qed.

Lemma max_severity_elem c cs :
  c ∈ cs → (severity c ≤ max_severity cs)%Z.
Proof.
  induction 1; rewrite max_severity_cons; lia.
Qed.

Lemma name_of_is_string n :
  (PassState.pass ≤ n ≤ PassState.fail)%Z →
  ∃ s, PassState.name_of n = VString s ∧ s ∈ ["pass"; "skip"; "warn"; "fail"].
Proof.
  unfold PassState.pass, PassState.fail. intros Hn.
  assert (n = 0 ∨ n = 1 ∨ n = 2 ∨ n = 3)%Z as Hc by lia. clear Hn.
  destruct Hc as [-> | [-> | [-> | ->]]];
    simpl; eexists; (split; [reflexivity|]); set_solver.
Qed.

(** C1: on a fresh recorder, between [start()] and [finish()], no
    warn/fail/skipped/threw/debug call lowers the status in the order
    pass < skip < warn < fail; the status reached, and the one [finish()]
    reports, is the greatest severity among the calls made (pass when there
    are none), whatever the order of the calls; so a sequence with a [fail]
    in it, such as fail, warn, skipped in any order, reports "fail". *)
Theorem status_is_max_severity (h : gmap loc object) (res : loc)
  (dbg : bool) (m0 : gmap string value) (t0 t1 : spec_float)
  (cs : list call) :
  h !! res = Some (ORecord m0) →
  Number.geb t0 0 = true →
  ∃ w1 w2,
    start t0 (new_TestCaseRecorder res dbg h) = Returns w1
    ∧ finish t1 (run_calls cs w1) = Returns w2
    ∧ (∀ pre c post, cs = pre ++ c :: post →
         (state (this (run_calls pre w1))
          ≤ state (this (do_call c (run_calls pre w1))))%Z)
    ∧ state (this (run_calls cs w1)) = max_severity cs
    ∧ result_field "status" w2 = Some (PassState.name_of (max_severity cs))
    ∧ (∀ cs', cs' ≡ₚ cs →
         ∃ w2', finish t1 (run_calls cs' w1) = Returns w2'
                ∧ result_field "status" w2' = result_field "status" w2)
    ∧ ((∃ ex, Fail ex ∈ cs) → result_field "status" w2 = Some (VString "fail")).
Proof.
  intros Hres Ht0. rewrite start_new.
  set (w1 := {| this := _; heap := _ |}).
  assert (wf w1 = true) as Hwf by exact (wf_new res dbg h m0 Hres).
  assert (∀ l, state (this (run_calls l w1)) = max_severity l) as Hst.
  { intros l. rewrite this_run_calls by (simpl; done). simpl.
    pose proof (max_severity_range l). unfold PassState.pass in *. lia. }
  assert (∀ l, ∃ w2, finish t1 (run_calls l w1) = Returns w2
            ∧ result_field "status" w2
              = Some (PassState.name_of (max_severity l))) as Hfin.
  { intros l. eexists. split.
    - apply finish_started. by rewrite startTime_run_calls.
    - rewrite <- Hst.
      eapply (result_after_finish t1 (run_calls l w1));
        [by apply wf_run_calls | apply finish_started;
                                 by rewrite startTime_run_calls]. }
  destruct (Hfin cs) as (w2 & Hw2 & Hstat).
  exists w1, w2. repeat split; try done.
  - intros pre c post _. apply state_monotone.
  - intros cs' Hperm. destruct (Hfin cs') as (w2' & Hw2' & Hstat').
    exists w2'. split; [done|].
    by rewrite Hstat, Hstat', (max_severity_Permutation _ _ Hperm).
  - intros [ex Hex]. rewrite Hstat.
    pose proof (max_severity_elem _ _ Hex) as Hle.
    pose proof (max_severity_range cs) as Hr.
    simpl in Hle. unfold PassState.fail in *.
    by replace (max_severity cs) with 3%Z by lia.
Qed.

Lemma status_is_max_severity_witness :
  ∃ w1 w2,
    start 5 (new_TestCaseRecorder 1%positive false heap1) = Returns w1
    ∧ finish 7
        (run_calls [Fail (error "f"); Warn (error "w"); Skipped (error "s")]
           w1) = Returns w2
    ∧ result_field "status" w2 = Some (VString "fail").
Proof.
  destruct (status_is_max_severity heap1 1%positive false ∅ 5 7
              [Fail (error "f"); Warn (error "w"); Skipped (error "s")])
    as (w1 & w2 & H1 & H2 & _ & _ & _ & _ & H3).
  - reflexivity.
  - reflexivity.
  - exists w1, w2. split; [exact H1|]. split; [exact H2|].
    apply H3. exists (error "f"). left.
Defined.

(** C5, as stated, fails: the three operations of
    [Math.ceil((t1 - t0) * 1000) / 1000] each round to the nearest binary64
    number, so the stored time is not always the elapsed time rounded up.
    On a recorder started at 3.5 and finished at 3.641 the elapsed time is
    0.14100000000000001, its product with 1000 rounds to 141, and
    [result.timems] is 0.141, which is less than the elapsed time. *)
Lemma timems_below_elapsed :
  ∃ w1 w2 timems,
    Number.geb clock_3_5 0 = true
    ∧ Number.geb clock_3_641 clock_3_5 = true
    ∧ start clock_3_5 (new_TestCaseRecorder 1%positive false heap1)
      = Returns w1
    ∧ finish clock_3_641 w1 = Returns w2
    ∧ result_field "timems" w2 = Some (VNumber timems)
    ∧ Number.sub clock_3_641 clock_3_5
      = S754_finite false 5080060379673920 (-55)
    ∧ Number.mul (Number.sub clock_3_641 clock_3_5) 1000 = Number.of_Z 141
    ∧ timems = S754_finite false 5080060379673919 (-55)
    ∧ Number.ltb timems (Number.sub clock_3_641 clock_3_5) = true.
Proof.
  eexists _, _, _. split; [reflexivity|]. split; [reflexivity|].
  split; [reflexivity|]. split; [reflexivity|]. split; [reflexivity|].
  split; [reflexivity|]. split; [reflexivity|]. split; reflexivity.
Qed.

(** C5, amended: on a recorder started at a reading [t0 >= 0] of the clock
    and finished at a finite reading [t1 >= t0], [finish()] stores in
    [result.timems] the value of [Math.ceil((t1 - t0) * 1000) / 1000] in
    binary64 arithmetic, each operation rounded to nearest, which is
    [>= 0] (and can be below [t1 - t0]); in [result.status] the name of the
    numeric status, 0 pass, 1 skip, 2 warn, 3 fail; and in [result.logs]
    the entries in the order their calls were made.  So warn then fail then
    [finish()] reports "fail" and the WARN entry followed by the FAIL
    entry. *)
Theorem finish_fills_result (h : gmap loc object) (res : loc)
  (dbg : bool) (m0 : gmap string value) (t0 t1 : spec_float)
  (cs : list call) :
  h !! res = Some (ORecord m0) →
  valid_binary Number.prec Number.emax t0 = true →
  valid_binary Number.prec Number.emax t1 = true →
  Number.isFinite t1 = true →
  Number.geb t0 0 = true →
  Number.geb t1 t0 = true →
  ∃ w1 w2 timems status,
    start t0 (new_TestCaseRecorder res dbg h) = Returns w1
    ∧ finish t1 (run_calls cs w1) = Returns w2
    ∧ result_field "timems" w2 = Some (VNumber timems)
    ∧ timems
      = Number.div (Math_ceil (Number.mul (Number.sub t1 t0) 1000)) 1000
    ∧ Number.geb timems 0 = true
    ∧ result_field "status" w2 = Some (VString status)
    ∧ (let n := state (this (run_calls cs w1)) in
       n = 0%Z ∧ status = "pass"%string ∨ n = 1%Z ∧ status = "skip"%string
       ∨ n = 2%Z ∧ status = "warn"%string ∨ n = 3%Z ∧ status = "fail"%string)
    ∧ result_logs w2 = Some (entries_of dbg cs)
    ∧ (∀ ex1 ex2, cs = [Warn ex1; Fail ex2] →
         status = "fail"%string
         ∧ result_logs w2 =
             Some [ {| name := "WARN"; message := ex_message ex1;
                       stack := ex_stack ex1 |};
                    {| name := "FAIL"; message := ex_message ex2;
                       stack := ex_stack ex2 |} ]).
Proof.
  intros Hres Hv0 Hv1 Hfin1 Ht0 Ht1. rewrite start_new.
  set (w1 := {| this := _; heap := _ |}).
  assert (wf w1 = true) as Hwf by exact (wf_new res dbg h m0 Hres).
  assert (recorder_logs w1 = []) as Hnil.
  { unfold recorder_logs, w1. simpl. by rewrite lookup_insert_eq. }
  assert (state (this (run_calls cs w1)) = max_severity cs) as Hst.
  { rewrite this_run_calls by (simpl; done). simpl.
    pose proof (max_severity_range cs). unfold PassState.pass in *. lia. }
  pose proof (finish_started t1 (run_calls cs w1)) as Hfin.
  rewrite startTime_run_calls in Hfin. specialize (Hfin Ht0).
  destruct (result_after_finish t1 _ _ (wf_run_calls cs w1 Hwf) Hfin)
    as (_ & Htime & Hstat & _ & Hlogs & _).
  rewrite startTime_run_calls in Htime.
  rewrite recorder_logs_run_calls, Hnil in Hlogs by done.
  pose proof (round_to_next_microsecond_nonneg _
                (sub_nonneg t0 t1 Hv0 Hv1 Ht0 Ht1 Hfin1)) as Hnn.
  apply geb_0_nonneg in Hnn.
  assert (∃ status,
            PassState.name_of (state (this (run_calls cs w1)))
            = VString status
            ∧ (let n := state (this (run_calls cs w1)) in
               n = 0%Z ∧ status = "pass"%string
               ∨ n = 1%Z ∧ status = "skip"%string
               ∨ n = 2%Z ∧ status = "warn"%string
               ∨ n = 3%Z ∧ status = "fail"%string))
    as (status & Hn & Htable).
  { rewrite Hst. pose proof (max_severity_range cs) as Hr.
    unfold PassState.pass, PassState.fail in Hr.
    assert (max_severity cs = 0 ∨ max_severity cs = 1 ∨ max_severity cs = 2
            ∨ max_severity cs = 3)%Z as Hc by lia.
    destruct Hc as [-> | [-> | [-> | ->]]]; simpl; eexists;
      (split; [reflexivity|]); tauto. }
  eexists w1, _, _, status. split; [reflexivity|].
  split; [exact Hfin|]. split; [exact Htime|].
  split; [reflexivity|]. split; [exact Hnn|].
  split; [by rewrite Hstat, Hn|]. split; [exact Htable|].
  split; [exact Hlogs|].
  intros ex1 ex2 ->. split; [|exact Hlogs].
  rewrite Hst in Hn. simpl in Hn. by injection Hn as <-.
Qed.

Lemma finish_fills_result_witness :
  ∃ w1 w2,
    start 5 (new_TestCaseRecorder 1%positive true heap1) = Returns w1
    ∧ finish clock_7_5 (run_calls [Warn (error "w1"); Fail (error "f1")] w1)
      = Returns w2
    ∧ result_field "timems" w2
      = Some (VNumber (S754_finite false 5629499534213120 (-51)))
    ∧ Number.geb (S754_finite false 5629499534213120 (-51)) 0 = true
    ∧ result_field "status" w2 = Some (VString "fail")
    ∧ result_logs w2 =
        Some [ {| name := "WARN"; message := "w1";
                  stack := Some "Error: w1 at body" |};
               {| name := "FAIL"; message := "f1";
                  stack := Some "Error: f1 at body" |} ].
Proof.
  destruct (finish_fills_result heap1 1%positive true ∅ 5 clock_7_5
              [Warn (error "w1"); Fail (error "f1")])
    as (w1 & w2 & timems & status & H1 & H2 & H3 & H4 & H5 & H6 & _ & _
        & H7); try reflexivity.
  destruct (H7 _ _ eq_refl) as [-> H8].
  exists w1, w2. rewrite H4 in H3, H5.
  split; [exact H1|]. split; [exact H2|]. split; [exact H3|].
  split; [exact H5|]. split; [exact H6|exact H8].
Defined.

Lemma result_logs_alias w :
  wf w = true →
  result_field "logs" w = Some (VRef (logs (this w))) →
  result_logs w = Some (recorder_logs w).
Proof.
  unfold wf, result_logs, recorder_logs. intros Hwf ->.
  destruct (heap w !! result (this w)) as [[|]|]; try done.
  by destruct (heap w !! logs (this w)) as [[|]|].
Qed.

(** C2, as stated, fails: [finish()] stores the recorder's own log array
    in [result.logs], so a [warn] made after [finish()] shows up in the
    finalized record. *)
Lemma warn_after_finish_mutates_result :
  ∃ w1 w2,
    start 5 (new_TestCaseRecorder 1%positive false heap1) = Returns w1
    ∧ finish 7 w1 = Returns w2
    ∧ result_logs w2 = Some []
    ∧ result_logs (warn (error "late") w2)
      = Some [new "WARN" (error "late") true]
    ∧ finalized (warn (error "late") w2) ≠ finalized w2.
Proof.
  eexists _, _. split; [reflexivity|]. split; [reflexivity|].
  split; [reflexivity|]. split; [reflexivity|].
  vm_compute. discriminate.
Qed.

(** C2, amended: after [finish()], later warn/fail/skipped/threw/debug
    calls leave [result.status] and [result.timems] as they are and
    [result.logs] keeps referring to the recorder's log array; that array
    is shared, so the finalized log grows by the entry of each later call
    (for [debug], only when debugging is on), after the entries it had. *)
Theorem after_finish_only_logs_grow (w w2 : World) (now : spec_float)
  (cs : list call) :
  wf w = true →
  finish now w = Returns w2 →
  result_field "status" (run_calls cs w2) = result_field "status" w2
  ∧ result_field "timems" (run_calls cs w2) = result_field "timems" w2
  ∧ result_field "logs" (run_calls cs w2) = Some (VRef (logs (this w2)))
  ∧ result_field "logs" w2 = Some (VRef (logs (this w2)))
  ∧ result_logs w2 = Some (recorder_logs w)
  ∧ result_logs (run_calls cs w2)
    = Some (recorder_logs w ++ entries_of (debugging (this w)) cs).
Proof.
  intros Hwf Hfin.
  destruct (result_after_finish now w w2 Hwf Hfin)
    as (Hthis & _ & _ & Hl & Hrl & Hrec & Hwf2).
  rewrite !result_field_run_calls, Hthis. repeat split; try done.
  rewrite result_logs_alias.
  - by rewrite recorder_logs_run_calls, Hrec, Hthis.
  - by apply wf_run_calls.
  - by rewrite result_field_run_calls, logs_run_calls, Hthis.
Qed.

Lemma after_finish_only_logs_grow_witness :
  ∃ w1 w2,
    start 5 (new_TestCaseRecorder 1%positive true heap1) = Returns w1
    ∧ finish 7 (warn (error "w") w1) = Returns w2
    ∧ result_field "status" (run_calls [Fail (error "f")] w2)
      = Some (VString "warn")
    ∧ result_logs (run_calls [Fail (error "f")] w2)
      = Some [new "WARN" (error "w") true; new "FAIL" (error "f") true].
Proof.
  eexists _, _. split; [reflexivity|]. split; [reflexivity|].
  match goal with
  | |- context [run_calls _ ?w2] =>
      destruct (after_finish_only_logs_grow
                  (warn (error "w")
                     {| this := {| result := 1%positive;
                                   state := PassState.pass;
                                   startTime := 5;
                                   logs := fresh (dom heap1);
                                   debugging := true |};
                        heap := <[fresh (dom heap1) := OArray []]> heap1 |})
                  w2 7 [Fail (error "f")])
        as (Hs & _ & _ & _ & _ & Hl)
  end.
  - reflexivity.
  - reflexivity.
  - split; [rewrite Hs; reflexivity | rewrite Hl; reflexivity].
Defined.

(** ** The assertions of [start] and [finish] *)

Lemma startTime_do_op o w w' :
  do_op o w = Returns w' →
  startTime (this w') =
    match o with Start now => now | _ => startTime (this w) end.
Proof.
  destruct o as [now|now|p|c]; simpl.
  - unfold start. destruct (Number.ltb _ _); [|done]. by intros [= <-].
  - unfold finish. destruct (Number.geb _ _); [|done]. by intros [= <-].
  - by intros [= <-].
  - intros [= <-]. apply (startTime_run_calls [c]).
Qed.

(** The recorder is unstarted exactly as long as no [start] was called, and
    its start time, [-1] or a reading of the clock, is never NaN: exactly
    one of [startTime < 0] and [startTime >= 0] holds. *)
Lemma unstarted_run_ops ops w :
  forallb clock_nonneg ops = true →
  Number.geb (startTime (this w)) 0 = negb (Number.ltb (startTime (this w)) 0) →
  Number.ltb (startTime (this (run_ops ops w))) 0 =
    Number.ltb (startTime (this w)) 0 && negb (existsb is_Start ops)
  ∧ Number.geb (startTime (this (run_ops ops w))) 0 =
      negb (Number.ltb (startTime (this (run_ops ops w))) 0).
Proof.
  revert w. induction ops as [|o ops IH]; intros w Hclock Hw; simpl.
  { by rewrite andb_true_r. }
  simpl in Hclock. apply andb_true_iff in Hclock as [Ho Hops].
  destruct (do_op o w) as [w'|msg] eqn:Hdo.
  - pose proof (startTime_do_op _ _ _ Hdo) as Hst.
    assert (Number.geb (startTime (this w')) 0
            = negb (Number.ltb (startTime (this w')) 0)) as Hw'.
    { destruct o as [now|now|p|c]; rewrite Hst; try done.
      simpl in Ho. by rewrite Ho, (geb_0_ltb_0 _ Ho). }
    destruct (IH w' Hops Hw') as [IH1 IH2]. split; [|exact IH2].
    rewrite IH1, Hst.
    destruct o as [now|now|p|c]; simpl; try done.
    simpl in Ho. by rewrite (geb_0_ltb_0 _ Ho), andb_false_r.
  - destruct (IH w Hops Hw) as [IH1 IH2]. split; [|exact IH2].
    rewrite IH1.
    destruct o as [now|now|p|c]; simpl in *; try done.
    unfold start in Hdo.
    destruct (Number.ltb (startTime (this w)) 0); [done|].
    by rewrite !andb_false_l.
Qed.

(** C3: on a recorder that went through any history of calls, [start()]
    fails its assertion exactly when [start()] was called before, and
    [finish()] fails its assertion exactly when [start()] was not called;
    on a fresh recorder [start()] then [finish()] both return.  The clock
    never reads a negative time. *)
Theorem start_finish_assertions (h : gmap loc object) (res : loc)
  (dbg : bool) (ops : list op) (now now' : spec_float) :
  forallb clock_nonneg ops = true →
  Number.geb now 0 = true →
  (throws (start now (run_ops ops (new_TestCaseRecorder res dbg h))) = true
   ↔ existsb is_Start ops = true)
  ∧ (throws (finish now (run_ops ops (new_TestCaseRecorder res dbg h))) = true
     ↔ existsb is_Start ops = false)
  ∧ ∃ w1 w2,
      start now (new_TestCaseRecorder res dbg h) = Returns w1
      ∧ finish now' w1 = Returns w2.
Proof.
  intros Hclock Hnow.
  destruct (unstarted_run_ops ops (new_TestCaseRecorder res dbg h) Hclock)
    as [Hun Hge]; [reflexivity|].
  change (Number.ltb (startTime (this (new_TestCaseRecorder res dbg h))) 0)
    with true in Hun.
  rewrite andb_true_l in Hun.
  split; [|split].
  - unfold start. rewrite Hun.
    by destruct (existsb is_Start ops).
  - unfold finish. rewrite Hge, Hun.
    by destruct (existsb is_Start ops).
  - rewrite start_new. eexists _, _. split; [reflexivity|].
    by apply finish_started.
Qed.

Lemma start_finish_assertions_witness :
  (throws (start 9 (run_ops [Call (Warn (error "w")); Start 3; Finish 4]
                      (new_TestCaseRecorder 1%positive false heap1))) = true
   ↔ true = true)
  ∧ (throws (finish 9 (run_ops [Call (Warn (error "w")); InjectResult ∅]
                         (new_TestCaseRecorder 1%positive false heap1)))
     = true ↔ false = false).
Proof.
  split.
  - apply (start_finish_assertions heap1 1%positive false
             [Call (Warn (error "w")); Start 3; Finish 4] 9 9);
      reflexivity.
  - apply (start_finish_assertions heap1 1%positive false
             [Call (Warn (error "w")); InjectResult ∅] 9 9);
      reflexivity.
Defined.

(** ** [threw], [debug] and [injectResult] *)

Lemma recorder_logs_do_call c w :
  wf w = true →
  recorder_logs (do_call c w) =
    recorder_logs w ++ entry_of (debugging (this w)) c.
Proof.
  intros Hwf. change (do_call c w) with (run_calls [c] w).
  rewrite (recorder_logs_run_calls [c] w Hwf).
  unfold entries_of. simpl. by rewrite app_nil_r.
Qed.

(** C4: [threw(ex)] on a [SkipTestCase] raises the status to at least skip
    and appends a SKIP entry; on any other exception it raises the status
    to fail and appends an EXCEPTION entry that carries the message and the
    stack of [ex]. *)
Theorem threw_classifies (ex : Error) (w : World) :
  wf w = true →
  (PassState.pass ≤ state (this w) ≤ PassState.fail)%Z →
  (instanceof_SkipTestCase ex = true →
     (PassState.skip ≤ state (this (threw ex w)))%Z
     ∧ (state (this w) ≤ state (this (threw ex w)))%Z
     ∧ recorder_logs (threw ex w) =
         recorder_logs w ++ [{| name := "SKIP";
                                message := ex_message ex;
                                stack := ex_stack ex |}])
  ∧ (instanceof_SkipTestCase ex = false →
     state (this (threw ex w)) = PassState.fail
     ∧ recorder_logs (threw ex w) =
         recorder_logs w ++ [{| name := "EXCEPTION";
                                message := ex_message ex;
                                stack := ex_stack ex |}]).
Proof.
  intros Hwf Hst.
  pose proof (recorder_logs_do_call (Threw ex) w Hwf) as Hlogs.
  pose proof (this_do_call (Threw ex) w (proj1 Hst)) as Hthis.
  simpl in Hlogs, Hthis. rewrite Hlogs, Hthis. simpl.
  unfold PassState.pass, PassState.skip, PassState.fail in *.
  split; intros ->; repeat split; try done; lia.
Qed.

Lemma threw_classifies_witness :
  (state (this (threw (skip_signal "unsupported")
                  (new_TestCaseRecorder 1%positive false heap1)))
   = PassState.skip
   ∧ recorder_logs (threw (skip_signal "unsupported")
                      (new_TestCaseRecorder 1%positive false heap1))
     = [new "SKIP" (skip_signal "unsupported") true])
  ∧ (state (this (threw (error "boom")
                    (new_TestCaseRecorder 1%positive false heap1)))
     = PassState.fail
     ∧ recorder_logs (threw (error "boom")
                        (new_TestCaseRecorder 1%positive false heap1))
       = [new "EXCEPTION" (error "boom") true]).
Proof.
  split.
  - destruct (threw_classifies (skip_signal "unsupported")
                (new_TestCaseRecorder 1%positive false heap1))
      as [Hskip _]; [reflexivity | simpl; unfold PassState.pass, PassState.fail; lia |].
    destruct (Hskip eq_refl) as (_ & _ & Hlogs).
    split; [reflexivity | exact Hlogs].
  - destruct (threw_classifies (error "boom")
                (new_TestCaseRecorder 1%positive false heap1))
      as [_ Hfail]; [reflexivity | simpl; unfold PassState.pass, PassState.fail; lia |].
    destruct (Hfail eq_refl) as (Hst & Hlogs).
    split; [exact Hst | exact Hlogs].
Defined.

Lemma entries_of_no_DEBUG cs e :
  e ∈ entries_of false cs → name e ≠ "DEBUG".
Proof.
  unfold entries_of. induction cs as [|c cs IH]; simpl.
  { by intros ?%elem_of_nil. }
  intros [He|He]%elem_of_app; [|by apply IH].
  destruct c as [ex|ex|ex|ex|ex]; simpl in He;
    try destruct (instanceof_SkipTestCase ex);
    apply list_elem_of_In in He; simpl in He;
    by (destruct He as [<-|[]] || destruct He).
Qed.

(** C6: [debug(entry)] never changes the status.  With the debugging flag
    off it changes nothing at all, so a log that holds no DEBUG entry
    holds none either after any further calls, and the finalized log has
    none; with the flag on it appends one DEBUG entry (without stack). *)
Theorem debug_only_when_debugging (ex : Error) (w : World) :
  wf w = true →
  state (this (debug ex w)) = state (this w)
  ∧ (debugging (this w) = false →
       debug ex w = w
       ∧ ∀ cs now w2,
           (∀ e, e ∈ recorder_logs w → name e ≠ "DEBUG") →
           finish now (run_calls cs w) = Returns w2 →
           ∃ es, result_logs w2 = Some es
                 ∧ ∀ e, e ∈ es → name e ≠ "DEBUG")
  ∧ (debugging (this w) = true →
       recorder_logs (debug ex w) =
         recorder_logs w ++ [{| name := "DEBUG";
                                message := ex_message ex;
                                stack := None |}]).
Proof.
  intros Hwf. split; [|split].
  - unfold debug. by destruct (debugging (this w)).
  - intros Hdbg. split; [unfold debug; by rewrite Hdbg|].
    intros cs now w2 Hnone Hfin.
    destruct (result_after_finish now _ w2 (wf_run_calls cs w Hwf) Hfin)
      as (_ & _ & _ & _ & Hlogs & _).
    rewrite recorder_logs_run_calls, Hdbg in Hlogs by done.
    eexists. split; [exact Hlogs|].
    intros e [He|He]%elem_of_app; [by apply Hnone|].
    by apply (entries_of_no_DEBUG cs).
  - intros Hdbg.
    pose proof (recorder_logs_do_call (Debug ex) w Hwf) as Hlogs.
    simpl in Hlogs. by rewrite Hlogs, Hdbg.
Qed.

Lemma debug_only_when_debugging_witness :
  debug (error "d") (new_TestCaseRecorder 1%positive false heap1)
  = new_TestCaseRecorder 1%positive false heap1
  ∧ recorder_logs (debug (error "d")
                     (new_TestCaseRecorder 1%positive true heap1))
    = [new "DEBUG" (error "d") false].
Proof.
  split.
  - destruct (debug_only_when_debugging (error "d")
                (new_TestCaseRecorder 1%positive false heap1))
      as (_ & Hoff & _); [reflexivity|].
    exact (proj1 (Hoff eq_refl)).
  - destruct (debug_only_when_debugging (error "d")
                (new_TestCaseRecorder 1%positive true heap1))
      as (_ & _ & Hon); [reflexivity|].
    exact (Hon eq_refl).
Defined.

(** C9: [injectResult(p)] writes the fields named in [p] to the result
    record and nothing else: the recorder object (its status included) and
    its log list stay as they are, a result field that [p] does not name
    keeps its value, and so does every other object. *)
Theorem injectResult_frame (p : gmap string value) (w : World) :
  wf w = true →
  this (injectResult p w) = this w
  ∧ state (this (injectResult p w)) = state (this w)
  ∧ recorder_logs (injectResult p w) = recorder_logs w
  ∧ (∀ k v, p !! k = Some v → result_field k (injectResult p w) = Some v)
  ∧ (∀ k, p !! k = None →
          result_field k (injectResult p w) = result_field k w)
  ∧ (∀ l, l ≠ result (this w) → heap (injectResult p w) !! l = heap w !! l).
Proof.
  unfold wf, recorder_logs, result_field, injectResult. simpl. intros Hwf.
  rewrite !lookup_Object_assign.
  destruct (heap w !! result (this w)) as [[|m]|] eqn:Hr; try done.
  destruct (heap w !! logs (this w)) as [[es|]|] eqn:Hl; try done.
  rewrite decide_True by done.
  repeat split; try done.
  - intros k v Hk. by apply lookup_union_Some_l.
  - intros k Hk. by apply lookup_union_r.
  - intros l Hne. rewrite lookup_Object_assign.
    destruct (heap w !! l) as [[|]|]; try done.
    by rewrite decide_False.
Qed.

Lemma injectResult_frame_witness :
  let w := warn (error "w") (new_TestCaseRecorder 1%positive false heap1) in
  let w' := injectResult {[ "status" := VString "fail" ]} w in
  state (this w') = PassState.warn
  ∧ recorder_logs w' = [new "WARN" (error "w") true]
  ∧ result_field "status" w' = Some (VString "fail")
  ∧ result_field "timems" w' = None.
Proof.
  intros w w'.
  destruct (injectResult_frame {[ "status" := VString "fail" ]} w)
    as (_ & Hst & Hlogs & Hin & Hout & _); [reflexivity|].
  split; [exact Hst|]. split; [exact Hlogs|].
  split; [apply Hin; reflexivity | apply Hout; reflexivity].
Defined.

(** * Properties of the log message with [setFirstLineOnly] *)

Lemma setFirstLineOnly_set f l :
  Internal.firstLineOnlyMessage l ≠ None → Internal.setFirstLineOnly f l = l.
Proof.
  unfold Internal.setFirstLineOnly.
  by destruct (Internal.firstLineOnlyMessage l).
Qed.

Lemma setFirstLineOnly_calls_set fs l :
  Internal.firstLineOnlyMessage l ≠ None →
  Internal.setFirstLineOnly_calls fs l = l.
Proof.
  intros Hset. unfold Internal.setFirstLineOnly_calls.
  induction fs as [|f fs IH]; simpl; [done|].
  by rewrite setFirstLineOnly_set.
Qed.

Lemma setFirstLineOnly_is_set f l :
  Internal.firstLineOnlyMessage (Internal.setFirstLineOnly f l) ≠ None.
Proof.
  unfold Internal.setFirstLineOnly.
  by destruct (Internal.firstLineOnlyMessage l) eqn:Hl; simpl; rewrite ?Hl.
Qed.

(** C8, as stated, fails: after [setFirstLineOnly] with a message that is
    not empty, [toJSON()] is not just the name and the first line, an
    "(elided: ...)" note follows. *)
Lemma toJSON_first_line_has_elided_note :
  Internal.toJSON Internal.whole_stack
    (Internal.setFirstLineOnly "known failure"
       (Internal.new "FAIL" two_line_error))
  = "FAIL: expected 1 (elided: known failure)"
  ∧ Internal.toJSON Internal.whole_stack
      (Internal.setFirstLineOnly "known failure"
         (Internal.new "FAIL" two_line_error))
    ≠ ("FAIL" ++ ": "
       ++ Internal.first_line (ex_message two_line_error))%string.
Proof. split; [reflexivity | vm_compute; discriminate]. Qed.

(** C8, amended: for a message whose text and stack are not empty,
    [toJSON()] is, when [setFirstLineOnly] was never called, the name, the
    whole text and, on a new line, the extracted stack trace; when it was
    called, the name and the first line of the text, without stack trace,
    followed by " (elided: m)" when the [m] of the first call is not
    empty. *)
Theorem toJSON_after_setFirstLineOnly
  (extractImportantStackTrace : Internal.LogMessageWithStack → string)
  (l : Internal.LogMessageWithStack) (fs : list string) :
  Internal.firstLineOnlyMessage l = None →
  Internal.truthy (Internal.message l) = true →
  Internal.truthy_opt (Internal.stack l) = true →
  Internal.toJSON extractImportantStackTrace
    (Internal.setFirstLineOnly_calls fs l) =
    match fs with
    | [] =>
        ((Internal.name l ++ ": " ++ Internal.message l)
         ++ String Internal.newline "" ++ extractImportantStackTrace l)%string
    | m :: _ =>
        if String.eqb m ""
        then (Internal.name l ++ ": "
              ++ Internal.first_line (Internal.message l))%string
        else ((Internal.name l ++ ": "
               ++ Internal.first_line (Internal.message l))
              ++ " (elided: " ++ m ++ ")")%string
    end.
Proof.
  intros Hnone Hmsg Hstack. destruct fs as [|m fs].
  - unfold Internal.toJSON. simpl. by rewrite Hnone, Hmsg, Hstack.
  - change (Internal.setFirstLineOnly_calls (m :: fs) l)
      with (Internal.setFirstLineOnly_calls fs
              (Internal.setFirstLineOnly m l)).
    rewrite setFirstLineOnly_calls_set by apply setFirstLineOnly_is_set.
    unfold Internal.toJSON, Internal.setFirstLineOnly.
    rewrite Hnone. simpl. rewrite Hmsg.
    by destruct (String.eqb m "").
Qed.

Lemma toJSON_after_setFirstLineOnly_witness :
  Internal.toJSON Internal.whole_stack
    (Internal.setFirstLineOnly_calls ["known failure"; "other"]
       (Internal.new "FAIL" two_line_error))
  = "FAIL: expected 1 (elided: known failure)"
  ∧ Internal.toJSON Internal.whole_stack
      (Internal.setFirstLineOnly_calls [] (Internal.new "FAIL" two_line_error))
    = ("FAIL: expected 1" ++ String Internal.newline "got 2"
       ++ String Internal.newline "Error: expected 1 at body")%string.
Proof.
  split.
  - rewrite (toJSON_after_setFirstLineOnly Internal.whole_stack
               (Internal.new "FAIL" two_line_error)
               ["known failure"; "other"]); reflexivity.
  - rewrite (toJSON_after_setFirstLineOnly Internal.whole_stack
               (Internal.new "FAIL" two_line_error) []); reflexivity.
Defined.

(** C10: [setFirstLineOnly] is first-write-wins: after one call, further
    calls with any messages leave the message object, hence its stored
    [firstLineOnlyMessage] and its [toJSON()], as they are; calling again
    with the same message changes nothing; and the first call on a new
    message stores its argument. *)
Theorem setFirstLineOnly_first_write_wins
  (extractImportantStackTrace : Internal.LogMessageWithStack → string)
  (l : Internal.LogMessageWithStack) (m : string) (ms : list string)
  (nm : string) (ex : Error) :
  Internal.setFirstLineOnly_calls ms (Internal.setFirstLineOnly m l)
  = Internal.setFirstLineOnly m l
  ∧ Internal.firstLineOnlyMessage
      (Internal.setFirstLineOnly_calls ms (Internal.setFirstLineOnly m l))
    = Internal.firstLineOnlyMessage (Internal.setFirstLineOnly m l)
  ∧ Internal.toJSON extractImportantStackTrace
      (Internal.setFirstLineOnly_calls ms (Internal.setFirstLineOnly m l))
    = Internal.toJSON extractImportantStackTrace
        (Internal.setFirstLineOnly m l)
  ∧ Internal.setFirstLineOnly m (Internal.setFirstLineOnly m l)
    = Internal.setFirstLineOnly m l
  ∧ Internal.firstLineOnlyMessage
      (Internal.setFirstLineOnly_calls (m :: ms) (Internal.new nm ex))
    = Some m.
Proof.
  pose proof (setFirstLineOnly_calls_set ms _ (setFirstLineOnly_is_set m l))
    as Hcalls.
  rewrite Hcalls. repeat split.
  - apply setFirstLineOnly_set, setFirstLineOnly_is_set.
  - change (Internal.setFirstLineOnly_calls (m :: ms) (Internal.new nm ex))
      with (Internal.setFirstLineOnly_calls ms
              (Internal.setFirstLineOnly m (Internal.new nm ex))).
    by rewrite setFirstLineOnly_calls_set by apply setFirstLineOnly_is_set.
Qed.

(** * Properties of the parameter space builder *)

Section list_monad.
Context {A B C : Type}.

Lemma bind_bind (f : A → list B) (g : B → list C) (l : list A) :
  (l ≫= f) ≫= g = l ≫= (λ x, f x ≫= g).
Proof. induction l as [|x l IH]; csimpl; [done|]. by rewrite bind_app, IH. Qed.

Lemma fmap_of_bind (f : B → C) (g : A → list B) (l : list A) :
  f <$> (l ≫= g) = l ≫= (λ x, f <$> g x).
Proof. induction l as [|x l IH]; csimpl; [done|]. by rewrite fmap_app, IH. Qed.

Lemma bind_ext_in (f g : A → list B) (l : list A) :
  (∀ x, x ∈ l → f x = g x) → l ≫= f = l ≫= g.
Proof. intros Hfg. by apply Forall_bind_ext, Forall_forall. Qed.

Lemma fmap_ext_in (f g : A → B) (l : list A) :
  (∀ x, x ∈ l → f x = g x) → f <$> l = g <$> l.
Proof.
  intros Hfg. apply list_fmap_ext. intros i x Hi.
  apply Hfg. by eapply list_elem_of_lookup_2.
Qed.

Lemma length_bind_fmap (f : A → B → C) (l : list A) (k : list B) :
  length (l ≫= λ x, f x <$> k) = (length l * length k)%nat.
Proof.
  induction l as [|x l IH]; csimpl; [done|].
  by rewrite length_app, length_fmap, IH.
Qed.

End list_monad.

Section builder.
Implicit Types (c e : gmap string value) (n : string) (vs : list value).
Implicit Types (axes tops subs : list (string * list value)).

Lemma merge_fresh c n v :
  c !! n = None → merge c {[n := v]} = Returns (<[n:=v]> c).
Proof.
  intros Hn. unfold merge.
  rewrite decide_True by (by apply map_disjoint_singleton_r).
  by rewrite insert_union_singleton_l.
Qed.

Lemma merge_each_combine c n vs :
  c !! n = None →
  merge_each c ((λ v, {[n := v]}) <$> vs)
  = Returns ((λ v, <[n:=v]> c) <$> vs).
Proof.
  intros Hn. induction vs as [|v vs IH]; [done|].
  cbn. rewrite merge_fresh by done. cbn.
  fold (@fmap list _ value (gmap string value)).
  by rewrite IH.
Qed.

Lemma multiply_combine n vs (cases : list (gmap string value)) :
  Forall (λ c, c !! n = None) cases →
  multiply (λ _, (λ v, {[n := v]}) <$> vs) cases
  = Returns (cases ≫= λ c, (λ v, <[n:=v]> c) <$> vs).
Proof.
  induction 1 as [|c cases Hc _ IH]; [done|].
  cbn [multiply]. rewrite merge_each_combine by done. cbn.
  by rewrite IH.
Qed.

Lemma nested_loops_dom axes e :
  e ∈ nested_loops axes → dom e = list_to_set axes.*1.
Proof.
  revert e. induction axes as [|[n vs] axes IH]; intros e; simpl.
  - intros ->%list_elem_of_singleton. by rewrite dom_empty_L.
  - intros (v & He & _)%list_elem_of_bind.
    apply list_elem_of_fmap in He as (e' & -> & He').
    by rewrite dom_insert_L, (IH e' He').
Qed.

Lemma nested_loops_fresh axes e n :
  n ∉ axes.*1 → e ∈ nested_loops axes → e !! n = None.
Proof.
  intros Hn He. apply not_elem_of_dom.
  rewrite (nested_loops_dom axes e He). by rewrite elem_of_list_to_set.
Qed.

(** Folding the [combine] operations of [axes] over a running sequence
    extends each of its cases, in order, by each combination of [axes], in
    the order of [nested_loops]. *)
Lemma expand_ops_combine axes (cases : list (gmap string value)) :
  NoDup axes.*1 →
  Forall (λ c, ∀ n, n ∈ axes.*1 → c !! n = None) cases →
  expand_ops ((λ a, combine a.1 a.2) <$> axes) cases
  = Returns (cases ≫= λ c, (λ e, e ∪ c) <$> nested_loops axes).
Proof.
  revert cases. induction axes as [|[n vs] axes IH]; intros cases Hnd Hfresh.
  - simpl. f_equal. induction cases as [|c cases IHc]; [done|].
    csimpl. rewrite (left_id_L ∅ (∪)). f_equal.
    apply IHc. by eapply Forall_inv_tail.
  - apply NoDup_cons in Hnd as [Hn Hnd].
    cbn [fmap list_fmap expand_ops apply_operation fst snd].
    rewrite multiply_combine.
    2:{ eapply Forall_impl; [exact Hfresh|]. intros c Hc. apply Hc. left. }
    cbn. rewrite IH; [|done|].
    2:{ apply Forall_bind. eapply Forall_impl; [exact Hfresh|].
        intros c Hc. apply Forall_fmap, Forall_forall. intros v _ n' Hn'.
        simpl. rewrite lookup_insert_ne by (intros <-; done).
        apply Hc. by right. }
    f_equal. rewrite bind_bind. apply bind_ext_in. intros c _.
    rewrite list_fmap_bind, fmap_of_bind.
    apply bind_ext_in. intros v _. simpl.
    rewrite <- list_fmap_compose. apply fmap_ext_in. intros e He. simpl.
    rewrite <- insert_union_l.
    by rewrite insert_union_r by (by eapply nested_loops_fresh).
Qed.

Lemma fmap_union_empty (l : list (gmap string value)) :
  (λ e, e ∪ ∅) <$> l = l.
Proof.
  rewrite <- (list_fmap_id l) at 2.
  apply fmap_ext_in. intros e _. apply (right_id_L ∅ (∪)).
Qed.

Lemma split_subcases_chain tops subs :
  split_subcases (chain tops subs)
  = ((λ a, combine a.1 a.2) <$> tops, (λ a, combine a.1 a.2) <$> subs).
Proof.
  unfold chain. induction tops as [|a tops IH]; [done|].
  csimpl in *. by rewrite IH.
Qed.

Lemma run_loop_bind b (f : gmap string value → list (gmap string value))
  (tops : list (gmap string value)) :
  Forall (λ c, subcases_of b c = Returns (f c)) tops →
  run_loop b tops = Returns (tops ≫= f).
Proof.
  induction 1 as [|c tops Hc _ IH]; [done|].
  cbn [run_loop]. rewrite Hc. cbn. by rewrite IH.
Qed.

Lemma nested_loops_app tops subs :
  NoDup (tops ++ subs).*1 →
  nested_loops (tops ++ subs)
  = nested_loops tops ≫= λ c, (λ e, e ∪ c) <$> nested_loops subs.
Proof.
  induction tops as [|[n vs] tops IH]; intros Hnd.
  - cbn [app nested_loops].
    by rewrite bind_singleton, fmap_union_empty.
  - csimpl in Hnd. apply NoDup_cons in Hnd as [Hn Hnd].
    cbn [app nested_loops fst snd]. rewrite IH by done. rewrite bind_bind.
    apply bind_ext_in. intros v _.
    rewrite list_fmap_bind, fmap_of_bind.
    apply bind_ext_in. intros c _. simpl.
    rewrite <- list_fmap_compose. apply fmap_ext_in. intros e He. simpl.
    apply insert_union_r. eapply nested_loops_fresh; [|done].
    intros Hin. apply Hn. rewrite fmap_app, elem_of_app. by right.
Qed.

Lemma product_of_sizes_app tops subs :
  product_of_sizes (tops ++ subs)
  = (product_of_sizes tops * product_of_sizes subs)%nat.
Proof.
  induction tops as [|a tops IH]; simpl; [lia|]. rewrite IH. lia.
Qed.

Lemma length_nested_loops axes :
  length (nested_loops axes) = product_of_sizes axes.
Proof.
  induction axes as [|[n vs] axes IH]; [done|].
  simpl. by rewrite length_bind_fmap, IH.
Qed.

Lemma NoDup_nested_loops axes :
  NoDup axes.*1 →
  Forall (λ a, NoDup a.2) axes →
  NoDup (nested_loops axes).
Proof.
  induction axes as [|[n vs] axes IH]; intros Hnd Hvs.
  - apply NoDup_singleton.
  - simpl in Hnd. apply NoDup_cons in Hnd as [Hn Hnd].
    apply Forall_cons in Hvs as [Hv Hvs]. simpl in *.
    apply NoDup_bind; [| |done].
    + intros v1 v2 c _ _ (e1 & -> & _)%list_elem_of_fmap
        (e2 & Heq & _)%list_elem_of_fmap.
      apply (f_equal (λ m, m !! n)) in Heq.
      rewrite !lookup_insert_eq in Heq. congruence.
    + intros v _. apply NoDup_fmap_2_strong; [|by apply IH].
      intros e1 e2 He1 He2 Heq.
      apply (f_equal (delete n)) in Heq.
      by rewrite !delete_insert_id in Heq
        by (by eapply nested_loops_fresh).
Qed.

Lemma elem_of_nested_loops axes c :
  NoDup axes.*1 →
  c ∈ nested_loops axes ↔ is_combination axes c.
Proof.
  unfold is_combination. revert c.
  induction axes as [|[n vs] axes IH]; intros c Hnd; simpl.
  - rewrite list_elem_of_singleton. split.
    + intros ->. by rewrite dom_empty_L.
    + intros [Hdom _]. by apply dom_empty_inv_L.
  - apply NoDup_cons in Hnd as [Hn Hnd]. split.
    + intros (v & Hc & Hv)%list_elem_of_bind.
      apply list_elem_of_fmap in Hc as (e & -> & He).
      pose proof (proj1 (IH e Hnd) He) as [Hdom Hall].
      split; [by rewrite dom_insert_L, Hdom|].
      constructor; simpl.
      * exists v. by rewrite lookup_insert_eq.
      * apply Forall_forall. intros a Ha.
        rewrite Forall_forall in Hall.
        destruct (Hall a Ha) as (v' & Hv' & Hlook).
        exists v'. split; [done|].
        rewrite lookup_insert_ne; [done|].
        intros ->. apply Hn, list_elem_of_fmap. by exists a.
    + intros [Hdom Hall].
      apply Forall_cons in Hall as [(v & Hv & Hlook) Hall]. simpl in *.
      apply list_elem_of_bind. exists v. split; [|done].
      apply list_elem_of_fmap. exists (delete n c).
      split; [by rewrite insert_delete_id|].
      apply IH; [done|]. split.
      * rewrite dom_delete_L, Hdom.
        apply set_eq. intros x.
        rewrite elem_of_difference, elem_of_union, !elem_of_list_to_set,
          elem_of_singleton.
        split; [by intros [[->|?] ?]|].
        intros Hx. split; [by right|]. by intros ->.
      * apply Forall_forall. intros a Ha.
        rewrite Forall_forall in Hall.
        destruct (Hall a Ha) as (v' & Hv' & Hlook').
        exists v'. split; [done|].
        rewrite lookup_delete_ne; [done|].
        intros ->. apply Hn, list_elem_of_fmap. by exists a.
Qed.

End builder.

(** C7: a chain of [combine] axes, [beginSubcases], and further [combine]
    axes, all of different names and without filters, executes the
    combinations of one value per axis in the order of the nested loops
    over the axes as declared; their number is the product of the sizes of
    the top-level axes times the product of the sizes of the subcase axes;
    every combination is executed, and, the values of each axis being
    different, none twice. *)
Theorem executed_chain_is_product (tops subs : list (string * list value)) :
  NoDup (tops ++ subs).*1 →
  Forall (λ a, NoDup a.2) (tops ++ subs) →
  executed (chain tops subs) = Returns (nested_loops (tops ++ subs))
  ∧ length (nested_loops (tops ++ subs))
    = (product_of_sizes tops * product_of_sizes subs)%nat
  ∧ NoDup (nested_loops (tops ++ subs))
  ∧ ∀ c, c ∈ nested_loops (tops ++ subs) ↔ is_combination (tops ++ subs) c.
Proof.
  intros Hnd Hvals.
  pose proof Hnd as Hnd'. rewrite fmap_app in Hnd'.
  apply NoDup_app in Hnd' as (Htops & Hdisj & Hsubs).
  split; [|split; [|split]].
  - unfold executed, top_level_cases. rewrite split_subcases_chain. simpl.
    rewrite expand_ops_combine; [|done|by repeat constructor].
    rewrite bind_singleton, fmap_union_empty. cbn [mbind outcome_bind].
    rewrite (run_loop_bind _
               (λ c, (λ e, e ∪ c) <$> nested_loops subs)).
    + by rewrite nested_loops_app.
    + apply Forall_forall. intros e He.
      unfold subcases_of. rewrite split_subcases_chain. simpl.
      rewrite expand_ops_combine; [by rewrite bind_singleton|done|].
      repeat constructor. intros n Hn.
      eapply nested_loops_fresh; [|done].
      intros Hin. by apply (Hdisj n).
  - by rewrite length_nested_loops, product_of_sizes_app.
  - by apply NoDup_nested_loops.
  - intros c. by apply elem_of_nested_loops.
Qed.

Lemma executed_chain_is_product_witness :
  executed (chain [axis_x] [axis_y])
  = Returns [ {[ "x" := VNumber 1; "y" := VString "a" ]};
              {[ "x" := VNumber 1; "y" := VString "b" ]};
              {[ "x" := VNumber 2; "y" := VString "a" ]};
              {[ "x" := VNumber 2; "y" := VString "b" ]} ]
  ∧ length (nested_loops [axis_x; axis_y]) = 4%nat.
Proof.
  destruct (executed_chain_is_product [axis_x] [axis_y])
    as (Hex & Hlen & _).
  - apply (bool_decide_unpack _). vm_compute. reflexivity.
  - apply (bool_decide_unpack _). vm_compute. reflexivity.
  - split; [rewrite Hex; vm_compute; reflexivity | exact Hlen].
Defined.

(** * Further properties of the recorder *)

Lemma entries_of_app dbg cs1 cs2 :
  entries_of dbg (cs1 ++ cs2) = entries_of dbg cs1 ++ entries_of dbg cs2.
Proof. unfold entries_of. by rewrite map_app, concat_app. Qed.

Lemma max_severity_app cs1 cs2 :
  max_severity (cs1 ++ cs2) = Z.max (max_severity cs1) (max_severity cs2).
Proof.
  induction cs1 as [|c cs1 IH].
  - change (max_severity []) with PassState.pass.
    pose proof (max_severity_range cs2). simpl. lia.
  - change ((c :: cs1) ++ cs2) with (c :: (cs1 ++ cs2)).
    rewrite !max_severity_cons, IH. lia.
Qed.

Lemma calls_of_cons o ops :
  calls_of (o :: ops)
  = match o with Call c => [c] | _ => [] end ++ calls_of ops.
Proof. reflexivity. Qed.

Lemma calls_of_app ops1 ops2 :
  calls_of (ops1 ++ ops2) = calls_of ops1 ++ calls_of ops2.
Proof. unfold calls_of. by rewrite map_app, concat_app. Qed.

Lemma injectResult_effect p w :
  wf w = true →
  wf (injectResult p w) = true
  ∧ this (injectResult p w) = this w
  ∧ recorder_logs (injectResult p w) = recorder_logs w.
Proof.
  unfold wf, recorder_logs, injectResult. simpl. intros Hwf.
  rewrite !lookup_Object_assign.
  destruct (heap w !! result (this w)) as [[|m]|]; try done.
  by destruct (heap w !! logs (this w)) as [[es|]|].
Qed.

(** What one operation of a history does to the recorder, when it
    returns. *)
Lemma do_op_effect o w w' :
  wf w = true →
  (PassState.pass ≤ state (this w))%Z →
  do_op o w = Returns w' →
  wf w' = true
  ∧ result (this w') = result (this w)
  ∧ logs (this w') = logs (this w)
  ∧ debugging (this w') = debugging (this w)
  ∧ state (this w') = Z.max (state (this w)) (max_severity (calls_of [o]))
  ∧ recorder_logs w'
    = recorder_logs w ++ entries_of (debugging (this w)) (calls_of [o]).
Proof.
  intros Hwf Hst Hdo. unfold PassState.pass in Hst.
  destruct o as [now|now|p|c]; simpl in Hdo.
  - unfold start in Hdo. destruct (Number.ltb _ _); [|done].
    injection Hdo as <-. unfold recorder_logs, wf in *. simpl.
    rewrite app_nil_r. repeat split; try done.
    unfold calls_of, max_severity, PassState.pass. simpl. lia.
  - destruct (result_after_finish now w w' Hwf Hdo)
      as (Hthis & _ & _ & _ & _ & Hlogs & Hwf').
    rewrite Hthis, Hlogs, app_nil_r. repeat split; try done.
    unfold calls_of, max_severity, PassState.pass. simpl. lia.
  - injection Hdo as <-.
    destruct (injectResult_effect p w Hwf) as (Hwf' & Hthis & Hlogs).
    rewrite Hthis, Hlogs, app_nil_r. repeat split; try done.
    unfold calls_of, max_severity, PassState.pass. simpl. lia.
  - injection Hdo as <-.
    rewrite this_do_call by done. simpl.
    repeat split; try done.
    + by apply (wf_run_calls [c]).
    + unfold calls_of, max_severity, PassState.pass. simpl. lia.
    + by apply (recorder_logs_run_calls [c]).
Qed.

Lemma run_ops_effect ops w :
  wf w = true →
  (PassState.pass ≤ state (this w))%Z →
  wf (run_ops ops w) = true
  ∧ result (this (run_ops ops w)) = result (this w)
  ∧ logs (this (run_ops ops w)) = logs (this w)
  ∧ debugging (this (run_ops ops w)) = debugging (this w)
  ∧ state (this (run_ops ops w))
    = Z.max (state (this w)) (max_severity (calls_of ops))
  ∧ recorder_logs (run_ops ops w)
    = recorder_logs w ++ entries_of (debugging (this w)) (calls_of ops).
Proof.
  revert w. induction ops as [|o ops IH]; intros w Hwf Hst.
  { simpl. rewrite app_nil_r. repeat split; try done.
    unfold calls_of, max_severity, PassState.pass in *. simpl. lia. }
  simpl. destruct (do_op o w) as [w'|msg] eqn:Hdo.
  - destruct (do_op_effect o w w' Hwf Hst Hdo)
      as (Hwf' & Hres & Hlogs & Hdbg & Hstate & Hentries).
    assert (PassState.pass ≤ state (this w'))%Z as Hst' by lia.
    destruct (IH w' Hwf' Hst') as (? & Hr & Hl & Hd & Hs & He).
    rewrite Hr, Hl, Hd, Hs, He, Hres, Hlogs, Hdbg, Hstate, Hentries.
    change (o :: ops) with ([o] ++ ops). rewrite (calls_of_app [o] ops).
    rewrite max_severity_app, entries_of_app, <- app_assoc.
    repeat split; try done. lia.
  - destruct (IH w Hwf Hst) as (? & Hr & Hl & Hd & Hs & He).
    assert (calls_of (o :: ops) = calls_of ops) as ->; [|done].
    rewrite calls_of_cons. by destruct o.
Qed.

Lemma worst_tag_app es1 es2 :
  worst_tag (es1 ++ es2) = Z.max (worst_tag es1) (worst_tag es2).
Proof.
  induction es1 as [|e es1 IH].
  - simpl. assert (PassState.pass ≤ worst_tag es2)%Z; [|lia].
    induction es2 as [|e es2 IH]; simpl; lia.
  - change (worst_tag ((e :: es1) ++ es2))
      with (Z.max (tag_severity e) (worst_tag (es1 ++ es2))).
    change (worst_tag (e :: es1))
      with (Z.max (tag_severity e) (worst_tag es1)).
    rewrite IH. lia.
Qed.

Lemma worst_tag_entries_of dbg cs :
  worst_tag (entries_of dbg cs) = max_severity cs.
Proof.
  induction cs as [|c cs IH]; [done|].
  change (entries_of dbg (c :: cs))
    with (entry_of dbg c ++ entries_of dbg cs).
  rewrite worst_tag_app, max_severity_cons, IH. f_equal.
  destruct c as [ex|ex|ex|ex|ex], dbg; simpl;
    try destruct (instanceof_SkipTestCase ex); reflexivity.
Qed.

Lemma entries_of_tags dbg cs e :
  e ∈ entries_of dbg cs →
  name e ∈ ["DEBUG"; "WARN"; "FAIL"; "SKIP"; "EXCEPTION"]%string
  ∧ (name e = "DEBUG" → stack e = None).
Proof.
  unfold entries_of. induction cs as [|c cs IH]; simpl.
  { by intros ?%elem_of_nil. }
  intros [He|He]%elem_of_app; [|by apply IH].
  destruct c as [ex|ex|ex|ex|ex], dbg; simpl in He;
    try destruct (instanceof_SkipTestCase ex);
    try (by apply elem_of_nil in He);
    apply list_elem_of_singleton in He as ->; simpl;
    (split; [|done]);
    repeat (apply list_elem_of_here || apply list_elem_of_further).
Qed.

Lemma result_field_finish_other k now w w2 :
  k ≠ "timems" → k ≠ "status" → k ≠ "logs" →
  finish now w = Returns w2 →
  result_field k w2 = result_field k w.
Proof.
  intros Ht Hs Hl. unfold finish.
  destruct (Number.geb (startTime (this w)) 0); [|done].
  intros [= <-]. unfold result_field. simpl.
  rewrite !lookup_set_field.
  destruct (heap w !! result (this w)) as [[|m]|]; try done.
  rewrite !decide_True by done.
  by rewrite !lookup_insert_ne by congruence.
Qed.

(** X1: the logging methods have no guard on the life cycle: after any
    history of [start], [finish], [injectResult] and logging calls on a
    new recorder, failed assertions included, the status is the greatest
    severity of all the logging calls made and the log holds exactly their
    entries, in the order of the calls. *)
Theorem any_history_status_and_log (h : gmap loc object) (res : loc)
  (dbg : bool) (m0 : gmap string value) (ops : list op) :
  h !! res = Some (ORecord m0) →
  state (this (run_ops ops (new_TestCaseRecorder res dbg h)))
  = max_severity (calls_of ops)
  ∧ recorder_logs (run_ops ops (new_TestCaseRecorder res dbg h))
    = entries_of dbg (calls_of ops).
Proof.
  intros Hres.
  destruct (run_ops_effect ops (new_TestCaseRecorder res dbg h))
    as (_ & _ & _ & _ & Hst & Hlogs).
  { by eapply wf_new. }
  { done. }
  rewrite Hst, Hlogs. simpl.
  unfold recorder_logs. simpl. rewrite lookup_insert_eq.
  pose proof (max_severity_range (calls_of ops)).
  unfold PassState.pass in *. split; [lia | done].
Qed.

Lemma any_history_status_and_log_witness :
  state (this (run_ops [Call (Warn (error "early")); Start 3; Finish 4;
                        Call (Fail (error "late")); Start 5]
                 (new_TestCaseRecorder 1%positive false heap1)))
  = PassState.fail
  ∧ recorder_logs
      (run_ops [Call (Warn (error "early")); Start 3; Finish 4;
                Call (Fail (error "late")); Start 5]
         (new_TestCaseRecorder 1%positive false heap1))
    = [new "WARN" (error "early") true; new "FAIL" (error "late") true].
Proof.
  apply (any_history_status_and_log heap1 1%positive false ∅
           [Call (Warn (error "early")); Start 3; Finish 4;
            Call (Fail (error "late")); Start 5]).
  reflexivity.
Defined.

(** X2: whenever [finish()] returns, after any history, the status it
    reports is the one of the worst tag in the log it reports: fail for a
    FAIL or EXCEPTION entry, else warn for a WARN entry, else skip for a
    SKIP entry, else pass. *)
Theorem reported_status_is_worst_tag (h : gmap loc object) (res : loc)
  (dbg : bool) (m0 : gmap string value) (ops : list op)
  (now : spec_float) (w2 : World) :
  h !! res = Some (ORecord m0) →
  finish now (run_ops ops (new_TestCaseRecorder res dbg h)) = Returns w2 →
  ∃ es, result_logs w2 = Some es
        ∧ result_field "status" w2 = Some (PassState.name_of (worst_tag es)).
Proof.
  intros Hres Hfin.
  destruct (run_ops_effect ops (new_TestCaseRecorder res dbg h))
    as (Hwf & _ & _ & _ & Hst & Hlogs).
  { by eapply wf_new. }
  { done. }
  destruct (result_after_finish now _ w2 Hwf Hfin)
    as (_ & _ & Hstatus & _ & Hrl & _).
  exists (entries_of dbg (calls_of ops)). split.
  - rewrite Hrl, Hlogs. simpl. unfold recorder_logs. simpl.
    by rewrite lookup_insert_eq.
  - rewrite Hstatus, Hst, worst_tag_entries_of. simpl.
    pose proof (max_severity_range (calls_of ops)).
    unfold PassState.pass in *. do 2 f_equal. lia.
Qed.

Lemma reported_status_is_worst_tag_witness :
  ∃ w2 es,
    finish 9 (run_ops [Start 3; Call (Debug (error "d"));
                       Call (Skipped (error "s")); Call (Warn (error "w"))]
                (new_TestCaseRecorder 1%positive true heap1)) = Returns w2
    ∧ result_logs w2 = Some es
    ∧ result_field "status" w2 = Some (PassState.name_of (worst_tag es)).
Proof.
  eexists _. 
  match goal with
  | |- ∃ es, ?F = Returns ?w ∧ _ =>
      assert (F = Returns w) as Hfin by reflexivity
  end.
  destruct (reported_status_is_worst_tag heap1 1%positive true ∅ _ _ _
              eq_refl Hfin) as (es & Hes & Hstat).
  exists es. by repeat split.
Defined.

Lemma finish_returns_started now w w2 :
  finish now w = Returns w2 → Number.geb (startTime (this w)) 0 = true.
Proof.
  unfold finish. by destruct (Number.geb (startTime (this w)) 0).
Qed.

(** X3: [finish()] has no guard against a second call: called again,
    after further logging calls, it returns and stores anew the name of
    the status reached by then and the time elapsed since [start()], and
    the finalized log has the entries of the further calls. *)
Theorem finish_again_refreshes_result (w w2 : World)
  (t1 t2 : spec_float) (cs : list call) :
  wf w = true →
  (PassState.pass ≤ state (this w))%Z →
  finish t1 w = Returns w2 →
  ∃ w3,
    finish t2 (run_calls cs w2) = Returns w3
    ∧ result_field "status" w3
      = Some (PassState.name_of (Z.max (state (this w)) (max_severity cs)))
    ∧ result_field "timems" w3
      = Some (VNumber (round_to_next_microsecond
                         (Number.sub t2 (startTime (this w)))))
    ∧ result_logs w3
      = Some (recorder_logs w ++ entries_of (debugging (this w)) cs).
Proof.
  intros Hwf Hst Hfin.
  pose proof (finish_returns_started _ _ _ Hfin) as Hstarted.
  destruct (result_after_finish t1 w w2 Hwf Hfin)
    as (Hthis & _ & _ & _ & _ & Hlogs & Hwf2).
  pose proof (finish_started t2 (run_calls cs w2)) as Hfin2.
  rewrite startTime_run_calls, Hthis in Hfin2. specialize (Hfin2 Hstarted).
  match type of Hfin2 with _ = Returns ?W => set (w3 := W) in * end.
  clearbody w3. exists w3. split; [exact Hfin2|].
  destruct (result_after_finish t2 _ _ (wf_run_calls cs w2 Hwf2) Hfin2)
    as (_ & Htime & Hstatus & _ & Hrl & _).
  rewrite startTime_run_calls, Hthis in Htime.
  rewrite this_run_calls in Hstatus by (by rewrite Hthis).
  simpl in Hstatus. rewrite Hthis in Hstatus.
  rewrite recorder_logs_run_calls, Hlogs, Hthis in Hrl by done.
  done.
Qed.

Lemma finish_again_refreshes_result_witness :
  ∃ w2 w3,
    finish 7 started1 = Returns w2
    ∧ finish 9 (run_calls [Fail (error "late")] w2) = Returns w3
    ∧ result_field "status" w3 = Some (VString "fail")
    ∧ result_field "timems" w3 = Some (VNumber (round_to_next_microsecond 4)).
Proof.
  destruct (finish 7 started1) as [w2|msg] eqn:Hf; [|by vm_compute in Hf].
  destruct (finish_again_refreshes_result started1 w2 7 9
              [Fail (error "late")])
    as (w3 & Hf3 & Hstat & Htime & _);
    [reflexivity | simpl; unfold PassState.pass; lia | exact Hf |].
  exists w2, w3. split; [reflexivity|]. split; [exact Hf3|].
  split; [exact Hstat | exact Htime].
Defined.

(** X4: [finish()] overwrites a [status], [timems] or [logs] injected
    before it with its own, whatever [injectResult] had put there, and
    keeps every other field of the result record, injected or not. *)
Theorem finish_overwrites_injected (p : gmap string value) (w w2 : World)
  (now : spec_float) :
  wf w = true →
  finish now (injectResult p w) = Returns w2 →
  result_field "status" w2 = Some (PassState.name_of (state (this w)))
  ∧ result_field "timems" w2
    = Some (VNumber (round_to_next_microsecond
                       (Number.sub now (startTime (this w)))))
  ∧ result_field "logs" w2 = Some (VRef (logs (this w)))
  ∧ result_logs w2 = Some (recorder_logs w)
  ∧ ∀ k, k ≠ "timems" → k ≠ "status" → k ≠ "logs" →
         result_field k w2
         = match p !! k with
           | Some v => Some v
           | None => result_field k w
           end.
Proof.
  intros Hwf Hfin.
  destruct (injectResult_effect p w Hwf) as (Hwf' & Hthis & Hlogs).
  destruct (result_after_finish now _ w2 Hwf' Hfin)
    as (_ & Htime & Hstatus & Hl & Hrl & _).
  rewrite Hthis in Htime, Hstatus, Hl. rewrite Hlogs in Hrl.
  repeat split; try done.
  intros k Hk1 Hk2 Hk3.
  rewrite (result_field_finish_other k now _ w2) by done.
  unfold result_field, injectResult, wf in *. simpl.
  rewrite lookup_Object_assign.
  destruct (heap w !! result (this w)) as [[|m]|]; try done.
  rewrite decide_True by done.
  destruct (p !! k) as [v|] eqn:Hp.
  - by apply lookup_union_Some_l.
  - by apply lookup_union_r.
Qed.

Lemma finish_overwrites_injected_witness :
  ∃ w2,
    finish 7
      (injectResult {[ "status" := VString "fail";
                       "note" := VString "flaky" ]} started1) = Returns w2
    ∧ result_field "status" w2 = Some (VString "pass")
    ∧ result_field "note" w2 = Some (VString "flaky").
Proof.
  destruct (finish 7 (injectResult _ started1)) as [w2|msg] eqn:Hf;
    [|by vm_compute in Hf].
  destruct (finish_overwrites_injected _ started1 w2 7 eq_refl Hf)
    as (Hstat & _ & _ & _ & Hother).
  exists w2. split; [reflexivity|]. split; [exact Hstat|].
  rewrite (Hother "note") by done. reflexivity.
Defined.

(** X5: two [injectResult] calls in a row amount to one with the merged
    record, in which the fields of the later call win; so injecting the
    same record twice is the same as once. *)
Theorem injectResult_compose (p1 p2 : gmap string value) (w : World) :
  injectResult p2 (injectResult p1 w) = injectResult (p2 ∪ p1) w
  ∧ injectResult p1 (injectResult p1 w) = injectResult p1 w.
Proof.
  assert (∀ q1 q2, injectResult q2 (injectResult q1 w)
                   = injectResult (q2 ∪ q1) w) as Hcomp.
  { intros q1 q2. unfold injectResult. simpl. f_equal.
    apply map_eq. intros l. rewrite !lookup_Object_assign.
    destruct (heap w !! l) as [[|m]|]; try done.
    case_decide; [|done]. by rewrite (assoc_L (∪)). }
  split; [apply Hcomp|].
  by rewrite Hcomp, (idemp_L (∪)).
Qed.

(** X6: in the log of a recorder, after any history, every entry has one
    of the five tags, and a DEBUG entry has no stack: its [toJSON()] is
    "DEBUG: " followed by the message, and the stack extraction is not
    used. *)
Theorem debug_entries_print_message
  (extractImportantStackTrace : LogMessageWithStack → string)
  (h : gmap loc object) (res : loc) (dbg : bool)
  (m0 : gmap string value) (ops : list op) (e : LogMessageWithStack) :
  h !! res = Some (ORecord m0) →
  e ∈ recorder_logs (run_ops ops (new_TestCaseRecorder res dbg h)) →
  name e ∈ ["DEBUG"; "WARN"; "FAIL"; "SKIP"; "EXCEPTION"]%string
  ∧ (name e = "DEBUG" →
       stack e = None
       ∧ toJSON extractImportantStackTrace e
         = ("DEBUG: " ++ message e)%string).
Proof.
  intros Hres He.
  destruct (run_ops_effect ops (new_TestCaseRecorder res dbg h))
    as (_ & _ & _ & _ & _ & Hlogs).
  { by eapply wf_new. }
  { done. }
  rewrite Hlogs in He. simpl in He.
  unfold recorder_logs in He. simpl in He.
  rewrite lookup_insert_eq in He. simpl in He.
  destruct (entries_of_tags _ _ _ He) as [Htag Hdebug].
  split; [done|]. intros Hname. specialize (Hdebug Hname).
  split; [done|]. unfold toJSON, has_stack. by rewrite Hdebug, Hname.
Qed.

Lemma debug_entries_print_message_witness :
  toJSON (λ _, "unused"%string) (new "DEBUG" (error "seen") false)
  = "DEBUG: seen"%string.
Proof.
  destruct (debug_entries_print_message (λ _, "unused"%string)
              heap1 1%positive true ∅
              [Start 1; Call (Debug (error "seen"))]
              (new "DEBUG" (error "seen") false)) as [_ Hdebug].
  - reflexivity.
  - vm_compute. apply list_elem_of_here.
  - exact (proj2 (Hdebug eq_refl)).
Defined.

(** * Further properties of the log message with [setFirstLineOnly] *)

Section internal_strings.
Import Internal.
Local Open Scope string_scope.

Lemma no_newline_app s1 s2 :
  no_newline (s1 ++ s2) = no_newline s1 && no_newline s2.
Proof.
  induction s1 as [|c s1 IH]; simpl; [done|].
  by rewrite IH, andb_assoc.
Qed.

Lemma no_newline_first_line s : no_newline (first_line s) = true.
Proof.
  induction s as [|c s IH]; simpl; [done|].
  destruct (Ascii.eqb c newline) eqn:Hc; simpl; [done|].
  by rewrite Hc, IH.
Qed.

Lemma replace_newlines_no_newline s :
  no_newline s = true → replace_newlines s = s.
Proof.
  induction s as [|c s IH]; simpl; [done|].
  destruct (Ascii.eqb c newline); simpl; [done|].
  intros Hs. by rewrite IH.
Qed.

Lemma prefix_empty s : String.prefix "" s = true.
Proof. by destruct s. Qed.

Lemma lines_indented_replace_newlines s :
  lines_indented (replace_newlines s) = true.
Proof.
  induction s as [|c s IH]; simpl; [done|].
  destruct (Ascii.eqb c newline) eqn:Hc; simpl.
  - change (String.prefix "" (replace_newlines s)
            && lines_indented (replace_newlines s) = true).
    by rewrite prefix_empty, IH.
  - by rewrite Hc, IH.
Qed.

Lemma unindent_replace_newlines s : unindent 0 (replace_newlines s) = s.
Proof.
  induction s as [|c s IH]; simpl; [done|].
  destruct (Ascii.eqb c newline) eqn:Hc; simpl.
  - apply Ascii.eqb_eq in Hc as ->.
    change (String newline (unindent 0 (replace_newlines s))
            = String newline s).
    by rewrite IH.
  - by rewrite Hc, IH.
Qed.

End internal_strings.

(** X7: [prettyPrintLog] starts with "  - " and indents the rest: in its
    output every newline is followed by four spaces. *)
Theorem prettyPrintLog_indents
  (extractImportantStackTrace : Internal.LogMessageWithStack → string)
  (log : Internal.LogMessageWithStack) :
  String.prefix "  - "
    (Internal.prettyPrintLog extractImportantStackTrace log) = true
  ∧ Internal.lines_indented
      (Internal.prettyPrintLog extractImportantStackTrace log) = true.
Proof.
  unfold Internal.prettyPrintLog.
  set (r := Internal.replace_newlines _).
  change ("  - " ++ r)%string
    with (String " " (String " " (String "-" (String " " r)))).
  simpl. subst r.
  by rewrite prefix_empty, lines_indented_replace_newlines.
Qed.

(** X8: [prettyPrintLog] loses nothing: dropping its first four
    characters and the four that follow each newline gives back the
    [toJSON()] text; so two logs that print alike have the same text. *)
Theorem prettyPrintLog_round_trip
  (extractImportantStackTrace : Internal.LogMessageWithStack → string)
  (log log' : Internal.LogMessageWithStack) :
  Internal.unindent 4
    (Internal.prettyPrintLog extractImportantStackTrace log)
  = Internal.toJSON extractImportantStackTrace log
  ∧ (Internal.prettyPrintLog extractImportantStackTrace log
     = Internal.prettyPrintLog extractImportantStackTrace log' →
     Internal.toJSON extractImportantStackTrace log
     = Internal.toJSON extractImportantStackTrace log').
Proof.
  assert (∀ l, Internal.unindent 4
                 (Internal.prettyPrintLog extractImportantStackTrace l)
               = Internal.toJSON extractImportantStackTrace l) as Hinv.
  { intros l. unfold Internal.prettyPrintLog.
    set (r := Internal.replace_newlines _).
    change ("  - " ++ r)%string
      with (String " " (String " " (String "-" (String " " r)))).
    simpl. apply unindent_replace_newlines. }
  split; [apply Hinv|].
  intros Heq. by rewrite <- (Hinv log), <- (Hinv log'), Heq.
Qed.

(** X9: [split('\n')[0]], the first line of a text, has no newline, is
    the whole text when that has none, and is followed in the text by
    nothing or by a newline. *)
Theorem first_line_spec (s : string) :
  Internal.no_newline (Internal.first_line s) = true
  ∧ (Internal.no_newline s = true → Internal.first_line s = s)
  ∧ ∃ rest,
      s = (Internal.first_line s ++ rest)%string
      ∧ (rest = ""%string ∨ ∃ r, rest = String Internal.newline r).
Proof.
  split; [apply no_newline_first_line|]. split.
  - induction s as [|c s IH]; simpl; [done|].
    destruct (Ascii.eqb c Internal.newline); simpl; [done|].
    intros Hs. by rewrite IH.
  - induction s as [|c s (rest & Hs & Hrest)]; simpl.
    + exists ""%string. by split; [|left].
    + destruct (Ascii.eqb c Internal.newline) eqn:Hc.
      * apply Ascii.eqb_eq in Hc as ->.
        exists (String Internal.newline s). split; [done|]. right. by exists s.
      * exists rest. split; [|done].
        change (String c s
                = String c (Internal.first_line s ++ rest)%string).
        by rewrite <- Hs.
Qed.

(** X10: a message whose first-line-only note is set prints on one line,
    as long as its name and the note have no newline: [toJSON()] has no
    newline, whatever the message text and the stack are, and
    [prettyPrintLog] only puts "  - " in front of it. *)
Theorem elided_message_is_one_line
  (extractImportantStackTrace : Internal.LogMessageWithStack → string)
  (log : Internal.LogMessageWithStack) (m : string) :
  Internal.firstLineOnlyMessage log = Some m →
  Internal.no_newline (Internal.name log) = true →
  Internal.no_newline m = true →
  Internal.no_newline (Internal.toJSON extractImportantStackTrace log) = true
  ∧ Internal.prettyPrintLog extractImportantStackTrace log
    = ("  - " ++ Internal.toJSON extractImportantStackTrace log)%string.
Proof.
  intros Hm Hname Hnote.
  assert (Internal.no_newline
            (Internal.toJSON extractImportantStackTrace log) = true) as Hno.
  { unfold Internal.toJSON. rewrite Hm.
    destruct (Internal.truthy (Internal.message log)),
      (negb (String.eqb m ""));
      rewrite ?no_newline_app, ?Hname, ?Hnote, ?no_newline_first_line;
      done. }
  split; [done|]. unfold Internal.prettyPrintLog.
  by rewrite replace_newlines_no_newline.
Qed.

Lemma elided_message_is_one_line_witness :
  Internal.prettyPrintLog Internal.whole_stack
    (Internal.setFirstLineOnly "known failure"
       (Internal.new "FAIL" two_line_error))
  = "  - FAIL: expected 1 (elided: known failure)"%string.
Proof.
  destruct (elided_message_is_one_line Internal.whole_stack
              (Internal.setFirstLineOnly "known failure"
                 (Internal.new "FAIL" two_line_error))
              "known failure") as [_ Hpretty]; [reflexivity..|].
  rewrite Hpretty. reflexivity.
Defined.

(** * Properties of the limit test utilities *)

Section limit_utils.
Import LimitUtils.
Local Open Scope Z_scope.

Lemma ToInt32_small z : 0 ≤ z < 2 ^ 31 → ToInt32 z = z.
Proof.
  intros Hz. unfold ToInt32. cbv zeta. change (2 ^ 32) with 4294967296.
  change (2 ^ 31) with 2147483648 in *.
  rewrite Z.mod_small by lia. by rewrite (proj2 (Z.ltb_lt _ _)) by lia.
Qed.

Lemma ToInt32_large z : 2 ^ 31 ≤ z < 2 ^ 32 → ToInt32 z = z - 2 ^ 32.
Proof.
  intros Hz. unfold ToInt32. cbv zeta.
  change (2 ^ 32) with 4294967296 in *.
  change (2 ^ 31) with 2147483648 in *.
  rewrite Z.mod_small by lia. by rewrite (proj2 (Z.ltb_ge _ _)) by lia.
Qed.

Lemma getLimitValue_mid_small d m :
  0 ≤ d → d ≤ m → d + m < 2 ^ 32 →
  getLimitValue d m betweenDefaultAndMaximum = (d + m) / 2
  ∧ d ≤ (d + m) / 2 ≤ m.
Proof.
  intros Hd Hdm Hsum. change (2 ^ 32) with 4294967296 in Hsum.
  unfold getLimitValue. rewrite Z.quot_div_nonneg by lia.
  rewrite ToInt32_small by (change (2 ^ 31) with 2147483648; Z.div_mod_to_equations; lia).
  Z.div_mod_to_equations. lia.
Qed.

End limit_utils.

(** X11: for limits [0 <= default <= maximum] whose sum is below 2^32,
    the five requested values are in the order underDefault < atDefault <=
    betweenDefaultAndMaximum <= atMaximum < overMaximum, and the middle one
    is the mean of the two limits rounded down. *)
Theorem getLimitValue_ordered (defaultLimit maximumLimit : Z) :
  (0 ≤ defaultLimit)%Z →
  (defaultLimit ≤ maximumLimit)%Z →
  (defaultLimit + maximumLimit < 2 ^ 32)%Z →
  (LimitUtils.getLimitValue defaultLimit maximumLimit LimitUtils.underDefault
   < LimitUtils.getLimitValue defaultLimit maximumLimit LimitUtils.atDefault
   ≤ LimitUtils.getLimitValue defaultLimit maximumLimit
       LimitUtils.betweenDefaultAndMaximum)%Z
  ∧ (LimitUtils.getLimitValue defaultLimit maximumLimit
       LimitUtils.betweenDefaultAndMaximum
     ≤ LimitUtils.getLimitValue defaultLimit maximumLimit LimitUtils.atMaximum
     < LimitUtils.getLimitValue defaultLimit maximumLimit
         LimitUtils.overMaximum)%Z
  ∧ LimitUtils.getLimitValue defaultLimit maximumLimit
      LimitUtils.betweenDefaultAndMaximum
    = ((defaultLimit + maximumLimit) / 2)%Z.
Proof.
  intros Hd Hdm Hsum. change (2 ^ 32)%Z with 4294967296%Z in Hsum.
  unfold LimitUtils.getLimitValue.
  rewrite Z.quot_div_nonneg by lia.
  rewrite ToInt32_small
    by (change (2 ^ 31)%Z with 2147483648%Z; Z.div_mod_to_equations; lia).
  Z.div_mod_to_equations. lia.
Qed.

Lemma getLimitValue_ordered_witness :
  LimitUtils.getLimitValue 8 11 LimitUtils.betweenDefaultAndMaximum = 9%Z.
Proof.
  destruct (getLimitValue_ordered 8 11) as (_ & _ & Hmid); [lia..|].
  exact Hmid.
Defined.

(** X12: when the sum of the two limits reaches 2^32 (and stays below
    2^33), [((default + maximum) / 2) | 0] wraps around: the value
    requested for betweenDefaultAndMaximum is the mean minus 2^32, a
    negative number, below both limits. *)
Theorem getLimitValue_between_wraps (defaultLimit maximumLimit : Z) :
  (0 ≤ defaultLimit)%Z →
  (defaultLimit ≤ maximumLimit)%Z →
  (2 ^ 32 ≤ defaultLimit + maximumLimit)%Z →
  (defaultLimit + maximumLimit < 2 ^ 33)%Z →
  LimitUtils.getLimitValue defaultLimit maximumLimit
    LimitUtils.betweenDefaultAndMaximum
  = ((defaultLimit + maximumLimit) / 2 - 2 ^ 32)%Z
  ∧ (LimitUtils.getLimitValue defaultLimit maximumLimit
       LimitUtils.betweenDefaultAndMaximum < 0)%Z.
Proof.
  intros Hd Hdm Hlo Hhi.
  change (2 ^ 32)%Z with 4294967296%Z in *.
  change (2 ^ 33)%Z with 8589934592%Z in *.
  unfold LimitUtils.getLimitValue.
  rewrite Z.quot_div_nonneg by lia.
  rewrite ToInt32_large
    by (change (2 ^ 31)%Z with 2147483648%Z;
        change (2 ^ 32)%Z with 4294967296%Z;
        Z.div_mod_to_equations; lia).
  change (2 ^ 32)%Z with 4294967296%Z. Z.div_mod_to_equations. lia.
Qed.

Lemma getLimitValue_between_wraps_witness :
  LimitUtils.getLimitValue 134217728 4294967292
    LimitUtils.betweenDefaultAndMaximum = (-2080374786)%Z.
Proof.
  destruct (getLimitValue_between_wraps 134217728 4294967292)
    as [Hval _]; [lia..|].
  exact Hval.
Defined.

(** X13: for a limit that is a maximum, with [0 <= default <= maximum]
    and their sum below 2^33, the device request is expected to be
    rejected exactly for overMaximum; and when the sum is below 2^32 the
    limit expected of the created device lies between the default and the
    maximum. *)
Theorem reject_iff_overMaximum (defaultLimit maximumLimit : Z)
  (limitValueTest : LimitUtils.LimitValueTest) :
  (0 ≤ defaultLimit)%Z →
  (defaultLimit ≤ maximumLimit)%Z →
  (defaultLimit + maximumLimit < 2 ^ 33)%Z →
  (LimitUtils.shouldReject false
     (LimitUtils.getLimitValue defaultLimit maximumLimit limitValueTest)
     maximumLimit = true
   ↔ limitValueTest = LimitUtils.overMaximum)
  ∧ (limitValueTest ≠ LimitUtils.overMaximum →
     (defaultLimit + maximumLimit < 2 ^ 32)%Z →
     (defaultLimit
      ≤ LimitUtils.expectedActualLimit false
          (LimitUtils.getLimitValue defaultLimit maximumLimit limitValueTest)
          defaultLimit
      ≤ maximumLimit)%Z).
Proof.
  intros Hd Hdm Hhi. change (2 ^ 33)%Z with 8589934592%Z in Hhi.
  assert (LimitUtils.getLimitValue defaultLimit maximumLimit
            LimitUtils.betweenDefaultAndMaximum ≤ maximumLimit)%Z as Hmid.
  { destruct (Z_lt_le_dec (defaultLimit + maximumLimit) (2 ^ 32)) as [Hlt|Hge].
    - destruct (getLimitValue_mid_small defaultLimit maximumLimit) as [-> ?];
        [done..|]. lia.
    - change (2 ^ 32)%Z with 4294967296%Z in Hge.
      unfold LimitUtils.getLimitValue.
      rewrite Z.quot_div_nonneg by lia.
      rewrite ToInt32_large
        by (change (2 ^ 31)%Z with 2147483648%Z;
            change (2 ^ 32)%Z with 4294967296%Z;
            Z.div_mod_to_equations; lia).
      change (2 ^ 32)%Z with 4294967296%Z. Z.div_mod_to_equations. lia. }
  split.
  - unfold LimitUtils.shouldReject. rewrite Z.gtb_ltb, Z.ltb_lt.
    destruct limitValueTest; simpl in *; split; intros; try done; lia.
  - intros Hne Hlo.
    destruct (getLimitValue_mid_small defaultLimit maximumLimit)
      as [Hval Hge]; [done..|].
    unfold LimitUtils.expectedActualLimit.
    destruct limitValueTest; try done;
      case_match; simpl in *; rewrite ?Z.leb_le, ?Z.leb_gt in *; lia.
Qed.

Lemma reject_iff_overMaximum_witness :
  LimitUtils.shouldReject false
    (LimitUtils.getLimitValue 8 11 LimitUtils.overMaximum) 11 = true
  ∧ (8 ≤ LimitUtils.expectedActualLimit false
           (LimitUtils.getLimitValue 8 11 LimitUtils.underDefault) 8
     ≤ 11)%Z.
Proof.
  split.
  - apply (reject_iff_overMaximum 8 11 LimitUtils.overMaximum);
      [lia | lia | lia | reflexivity].
  - apply (reject_iff_overMaximum 8 11 LimitUtils.underDefault);
      [lia | lia | lia | discriminate | lia].
Defined.

(** X14: with the value [getTestValue] derives from the limit of the
    device, a test of a maximum limit expects an error exactly for
    overLimit, and a test of a minimum limit expects none. *)
Theorem shouldError_iff_overLimit (actualLimit : Z)
  (testValueName : LimitUtils.TestValue) :
  (LimitUtils.shouldError false
     (LimitUtils.getTestValue actualLimit testValueName) actualLimit = true
   ↔ testValueName = LimitUtils.overLimit)
  ∧ LimitUtils.shouldError true
      (LimitUtils.getTestValue actualLimit testValueName) actualLimit
    = false.
Proof.
  unfold LimitUtils.shouldError.
  rewrite Z.gtb_ltb, Z.ltb_lt, Z.ltb_ge.
  destruct testValueName; simpl; (split; [split|]); intros; try done; lia.
Qed.

(** X15: the bind group index of a binding [i >= 0] is 0, 1 or 2 (0 for
    sameGroup), so that it never is the group 3 that the compute shader
    keeps for its own buffer. *)
Theorem getBindGroupIndex_range (bindGroupTest : LimitUtils.BindGroupTest)
  (i : Z) :
  (0 ≤ i)%Z →
  (0 ≤ LimitUtils.getBindGroupIndex bindGroupTest i ≤ 2)%Z
  ∧ LimitUtils.getBindGroupIndex LimitUtils.sameGroup i = 0%Z
  ∧ LimitUtils.getBindGroupIndex LimitUtils.differentGroups (i + 3)
    = LimitUtils.getBindGroupIndex LimitUtils.differentGroups i.
Proof.
  intros Hi. unfold LimitUtils.getBindGroupIndex.
  split; [|split; [done|]].
  - destruct bindGroupTest; [lia|]. Z.quot_rem_to_equations. lia.
  - Z.quot_rem_to_equations. lia.
Qed.

Lemma getBindGroupIndex_range_witness :
  (0 ≤ LimitUtils.getBindGroupIndex LimitUtils.differentGroups 7 ≤ 2)%Z.
Proof.
  apply (getBindGroupIndex_range LimitUtils.differentGroups 7). lia.
Defined.

(** * Properties of the aligned buffer copy *)

Lemma createCopyForMapRead_returns srcOffset size :
  (Z.rem srcOffset 4 = 0)%Z →
  (Z.rem size 4 = 0)%Z →
  GPUTest.createCopyForMapRead true srcOffset size
  = Returns {| GPUTest.srcOffset := srcOffset; GPUTest.size := size |}.
Proof.
  intros Ho Hs.
  unfold GPUTest.createCopyForMapRead, GPUTest.device, GPUTest.assert.
  by rewrite Ho, Hs.
Qed.


(** X17: with [roundDown] and [align] rounding to multiples of 4 as in
    [util/math.js], and a device provider there,
    [createAlignedCopyForMapRead] never fails the assertions of
    [createCopyForMapRead] for an offset and a size that are not
    negative; the copy it makes starts at most 3 bytes before the
    offset, covers the bytes asked for, and the returned
    [subarrayByteStart] is where they begin in the copy. *)
Theorem createAlignedCopyForMapRead_covers (roundDown align : Z → Z → Z)
  (size offset : Z) :
  (∀ n, (0 ≤ n)%Z → roundDown n 4 = GPUTest.floor_multiple n 4) →
  (∀ n, (0 ≤ n)%Z → align n 4 = GPUTest.ceil_multiple n 4) →
  (0 ≤ size)%Z →
  (0 ≤ offset)%Z →
  ∃ mappable subarrayByteStart,
    GPUTest.createAlignedCopyForMapRead roundDown align true size offset
    = Returns (mappable, subarrayByteStart)
    ∧ (0 ≤ subarrayByteStart ≤ 3)%Z
    ∧ (GPUTest.srcOffset mappable + subarrayByteStart = offset)%Z
    ∧ (offset + size
       ≤ GPUTest.srcOffset mappable + GPUTest.size mappable)%Z
    ∧ (GPUTest.size mappable ≤ size + 6)%Z.
Proof.
  intros Hdown Halign Hsize Hoffset.
  unfold GPUTest.createAlignedCopyForMapRead. cbv zeta.
  rewrite Hdown by done.
  assert (0 ≤ offset - GPUTest.floor_multiple offset 4 ≤ 3)%Z as Hstart.
  { unfold GPUTest.floor_multiple. Z.div_mod_to_equations. lia. }
  rewrite Halign by lia.
  rewrite createCopyForMapRead_returns.
  - eexists _, _. split; [reflexivity|]. simpl.
    unfold GPUTest.ceil_multiple, GPUTest.floor_multiple in *.
    Z.div_mod_to_equations. lia.
  - unfold GPUTest.floor_multiple. apply Z.rem_divide; [done|].
    apply Z.divide_factor_r.
  - unfold GPUTest.ceil_multiple. apply Z.rem_divide; [done|].
    apply Z.divide_factor_r.
Qed.

Lemma createAlignedCopyForMapRead_covers_witness :
  GPUTest.createAlignedCopyForMapRead
    GPUTest.floor_multiple GPUTest.ceil_multiple true 5 6
  = Returns ({| GPUTest.srcOffset := 4; GPUTest.size := 8 |}, 2%Z).
Proof.
  destruct (createAlignedCopyForMapRead_covers
              GPUTest.floor_multiple GPUTest.ceil_multiple 5 6)
    as (mappable & start & Heq & _); [done | done | lia | lia |].
  rewrite Heq. vm_compute in Heq. by injection Heq as <- <-.
Defined.

Section readback.
Import GPUTest.
Local Open Scope Z_scope.
Variables roundDown align : Z → Z → Z.
Hypothesis roundDown_4 : ∀ n, 0 ≤ n → roundDown n 4 = floor_multiple n 4.
Hypothesis roundDown_8 : ∀ n, 0 ≤ n → roundDown n 8 = floor_multiple n 8.
Hypothesis align_4 : ∀ n, 0 ≤ n → align n 4 = ceil_multiple n 4.

Lemma createAlignedCopyForMapRead_returns size offset :
  0 ≤ size → 0 ≤ offset →
  createAlignedCopyForMapRead roundDown align true size offset
  = Returns ({| srcOffset := floor_multiple offset 4;
                GPUTest.size :=
                  ceil_multiple (size + (offset - floor_multiple offset 4)) 4 |},
             offset - floor_multiple offset 4).
Proof.
  intros Hsize Hoffset.
  unfold createAlignedCopyForMapRead. cbv zeta.
  rewrite roundDown_4 by done.
  assert (0 ≤ offset - floor_multiple offset 4 ≤ 3) as Hstart.
  { unfold floor_multiple. Z.div_mod_to_equations. lia. }
  rewrite align_4 by lia.
  rewrite createCopyForMapRead_returns; [done| |].
  - unfold floor_multiple. apply Z.rem_divide; [done|].
    apply Z.divide_factor_r.
  - unfold ceil_multiple. apply Z.rem_divide; [done|].
    apply Z.divide_factor_r.
Qed.

Lemma assert_true msg : assert true msg = Returns tt.
Proof. reflexivity. Qed.

Lemma rem_eqb_divide a b : b ≠ 0 → (b | a) → (Z.rem a b =? 0) = true.
Proof. intros Hb Hd. apply Z.eqb_eq. by apply Z.rem_divide. Qed.

Lemma readGPUBufferRangeTyped_returns method bpe offset tl :
  bpe ∈ [1; 2; 4; 8] → 0 ≤ offset → (bpe | offset) → 0 ≤ tl →
  let a := match method with copy => 4 | map => 8 end in
  readGPUBufferRangeTyped roundDown align true method bpe offset tl
  = Returns
      {| dataByteOffset :=
           floor_multiple offset a
           + Z.min ((offset mod a) / bpe)
               (match method with
                | copy => ceil_multiple (tl * bpe + offset mod 4) 4
                | map => ceil_multiple (tl * bpe) 4
                end / bpe) * bpe;
         dataLength := Z.max 0 (tl - (offset mod a) / bpe) |}.
Proof.
  intros Hbpe Hoffset [k ->] Htl a.
  assert (bpe = 1 ∨ bpe = 2 ∨ bpe = 4 ∨ bpe = 8) as Hcases.
  { rewrite !elem_of_cons, elem_of_nil in Hbpe. tauto. }
  unfold readGPUBufferRangeTyped.
  rewrite rem_eqb_divide, assert_true
    by (try apply Z.divide_factor_r; lia).
  cbn [mbind outcome_bind].
  destruct method; subst a.
  - rewrite createAlignedCopyForMapRead_returns by lia.
    cbn [mbind outcome_bind fst snd srcOffset GPUTest.size].
    assert (k * bpe - floor_multiple (k * bpe) 4 = (k * bpe) mod 4) as ->.
    { unfold floor_multiple. Z.div_mod_to_equations. lia. }
    rewrite (rem_eqb_divide ((k * bpe) mod 4) bpe), assert_true; [|lia|].
    2:{ destruct Hcases as [-> | [-> | [-> | ->]]].
        - apply Z.divide_1_l.
        - exists ((k * 2) mod 4 / 2). Z.div_mod_to_equations. lia.
        - exists 0. Z.div_mod_to_equations. lia.
        - exists 0. Z.div_mod_to_equations. lia. }
    cbn [mbind outcome_bind].
    rewrite rem_eqb_divide, assert_true; [|lia|].
    2:{ unfold ceil_multiple.
        destruct Hcases as [-> | [-> | [-> | ->]]].
        - apply Z.divide_1_l.
        - exists ((tl * 2 + (k * 2) mod 4 + 4 - 1) / 4 * 2). lia.
        - exists ((tl * 4 + (k * 4) mod 4 + 4 - 1) / 4). lia.
        - exists ((tl * 8 + (k * 8) mod 4 + 4 - 1) / 4 / 2).
          Z.div_mod_to_equations. lia. }
    cbn [mbind outcome_bind]. unfold subarray, relative_index. cbv zeta.
    cbn [fst snd]. f_equal.
    assert (0 ≤ (k * bpe) mod 4 / bpe) as Hs
      by (Z.div_mod_to_equations; lia).
    rewrite !(proj2 (Z.ltb_ge _ _)) by lia.
    unfold ceil_multiple in *.
    destruct Hcases as [-> | [-> | [-> | ->]]];
      f_equal; Z.div_mod_to_equations; lia.
  - rewrite roundDown_8, align_4 by lia.
    cbn [mbind outcome_bind fst snd].
    assert (k * bpe - floor_multiple (k * bpe) 8 = (k * bpe) mod 8) as ->.
    { unfold floor_multiple. Z.div_mod_to_equations. lia. }
    rewrite (rem_eqb_divide ((k * bpe) mod 8) bpe), assert_true; [|lia|].
    2:{ destruct Hcases as [-> | [-> | [-> | ->]]].
        - apply Z.divide_1_l.
        - exists ((k * 2) mod 8 / 2). Z.div_mod_to_equations. lia.
        - exists ((k * 4) mod 8 / 4). Z.div_mod_to_equations. lia.
        - exists 0. Z.div_mod_to_equations. lia. }
    cbn [mbind outcome_bind].
    rewrite rem_eqb_divide, assert_true; [|lia|].
    2:{ unfold ceil_multiple.
        destruct Hcases as [-> | [-> | [-> | ->]]].
        - apply Z.divide_1_l.
        - exists ((tl * 2 + 4 - 1) / 4 * 2). lia.
        - exists ((tl * 4 + 4 - 1) / 4). lia.
        - exists ((tl * 8 + 4 - 1) / 4 / 2). Z.div_mod_to_equations. lia. }
    cbn [mbind outcome_bind]. unfold subarray, relative_index. cbv zeta.
    cbn [fst snd]. f_equal.
    assert (0 ≤ (k * bpe) mod 8 / bpe) as Hs
      by (Z.div_mod_to_equations; lia).
    rewrite !(proj2 (Z.ltb_ge _ _)) by lia.
    unfold ceil_multiple in *.
    destruct Hcases as [-> | [-> | [-> | ->]]];
      f_equal; Z.div_mod_to_equations; lia.
Qed.

End readback.

(** X18: [readGPUBufferRangeTyped], for an element size of 1, 2, 4 or 8
    bytes, an offset that is a multiple of it and a length that is not
    negative, returns data that begins at the offset asked for; it has all
    the [typedLength] elements when the offset is a multiple of 4 (copy) or
    of 8 (map), and otherwise as many fewer as there are elements between
    the rounded offset and the offset, because the end of the [subarray]
    is [typedLength], not [subarrayStart + typedLength]. *)
Theorem readGPUBufferRangeTyped_data (roundDown align : Z → Z → Z)
  (method : GPUTest.ReadbackMethod)
  (BYTES_PER_ELEMENT srcByteOffset typedLength : Z) :
  (∀ n, (0 ≤ n)%Z → roundDown n 4 = GPUTest.floor_multiple n 4) →
  (∀ n, (0 ≤ n)%Z → roundDown n 8 = GPUTest.floor_multiple n 8) →
  (∀ n, (0 ≤ n)%Z → align n 4 = GPUTest.ceil_multiple n 4) →
  BYTES_PER_ELEMENT ∈ [1; 2; 4; 8]%Z →
  (0 ≤ srcByteOffset)%Z →
  (BYTES_PER_ELEMENT | srcByteOffset)%Z →
  (0 ≤ typedLength)%Z →
  ∃ data,
    GPUTest.readGPUBufferRangeTyped roundDown align true method
      BYTES_PER_ELEMENT srcByteOffset typedLength = Returns data
    ∧ GPUTest.dataLength data
      = Z.max 0 (typedLength
                 - (srcByteOffset mod GPUTest.staging_alignment method)
                   / BYTES_PER_ELEMENT)%Z
    ∧ ((0 < GPUTest.dataLength data)%Z →
       GPUTest.dataByteOffset data = srcByteOffset)
    ∧ ((GPUTest.staging_alignment method | srcByteOffset)%Z →
       GPUTest.dataLength data = typedLength)
    ∧ (¬ (GPUTest.staging_alignment method | srcByteOffset)%Z →
       (0 < typedLength)%Z →
       (GPUTest.dataLength data < typedLength)%Z).
Proof.
  intros Hd4 Hd8 Ha4 Hbpe Hoffset Hdiv Htl.
  rewrite (readGPUBufferRangeTyped_returns roundDown align Hd4 Hd8 Ha4)
    by done.
  eexists. split; [reflexivity|].
  cbn [GPUTest.dataLength GPUTest.dataByteOffset].
  assert (BYTES_PER_ELEMENT = 1 ∨ BYTES_PER_ELEMENT = 2
          ∨ BYTES_PER_ELEMENT = 4 ∨ BYTES_PER_ELEMENT = 8)%Z as Hcases.
  { rewrite !elem_of_cons, elem_of_nil in Hbpe. tauto. }
  destruct Hdiv as [k ->].
  split; [by destruct method|].
  split; [|split].
  - unfold GPUTest.floor_multiple, GPUTest.ceil_multiple.
    destruct method, Hcases as [-> | [-> | [-> | ->]]];
      intros Hpos; Z.div_mod_to_equations; lia.
  - intros [j Hj]. unfold GPUTest.staging_alignment in *.
    destruct method, Hcases as [-> | [-> | [-> | ->]]];
      Z.div_mod_to_equations; lia.
  - intros Hnot Hpos.
    assert ((k * BYTES_PER_ELEMENT) mod GPUTest.staging_alignment method
            ≠ 0)%Z as Hmod.
    { intros Hz. apply Hnot. apply Z.mod_divide; [by destruct method|done]. }
    unfold GPUTest.staging_alignment in *.
    destruct method, Hcases as [-> | [-> | [-> | ->]]];
      Z.div_mod_to_equations; lia.
Qed.

Lemma readGPUBufferRangeTyped_data_witness :
  GPUTest.readGPUBufferRangeTyped
    GPUTest.floor_multiple GPUTest.ceil_multiple true GPUTest.copy 1 5 4
  = Returns {| GPUTest.dataByteOffset := 5; GPUTest.dataLength := 3 |}.
Proof.
  destruct (readGPUBufferRangeTyped_data
              GPUTest.floor_multiple GPUTest.ceil_multiple GPUTest.copy 1 5 4)
    as (data & Heq & _); [done | done | done | | lia | | lia |].
  - apply list_elem_of_here.
  - apply Z.divide_1_l.
  - rewrite Heq. vm_compute in Heq. by injection Heq as <-.
Defined.

(** X19: no method of the recorder, in any history, removes or reorders
    log entries, lowers the status, or replaces the result record, the log
    array or the debugging flag the recorder was built with. *)
Theorem history_only_adds (w : World) (ops : list op) :
  wf w = true →
  (PassState.pass ≤ state (this w))%Z →
  (∃ added, recorder_logs (run_ops ops w) = recorder_logs w ++ added)
  ∧ (state (this w) ≤ state (this (run_ops ops w)))%Z
  ∧ result (this (run_ops ops w)) = result (this w)
  ∧ logs (this (run_ops ops w)) = logs (this w)
  ∧ debugging (this (run_ops ops w)) = debugging (this w)
  ∧ wf (run_ops ops w) = true.
Proof.
  intros Hwf Hst.
  destruct (run_ops_effect ops w Hwf Hst)
    as (Hwf' & Hres & Hlogs & Hdbg & Hstate & Hentries).
  split; [by eexists|]. rewrite Hstate. repeat split; try done. lia.
Qed.

Lemma history_only_adds_witness :
  ∃ added,
    recorder_logs
      (run_ops [Finish 9; Call (Warn (error "w")); InjectResult ∅; Start 1]
         (fail (error "f") started1))
    = recorder_logs (fail (error "f") started1) ++ added.
Proof.
  apply (history_only_adds (fail (error "f") started1)
           [Finish 9; Call (Warn (error "w")); InjectResult ∅; Start 1]).
  - reflexivity.
  - simpl. unfold PassState.pass. lia.
Defined.
